(** * withlockfile: a shallow embedding of [withlockfile.cpp]

    The program takes a lock file and a command, acquires an exclusive
    byte-range lock on the file (retrying while another process holds it),
    runs the command as a child inside a job object, waits for it, releases
    the lock and exits with the child's exit code.

    The two string helpers ([enforceExeExtension], [quoteArgument]) are
    plain functions on strings.  [main] is a computation in a state and
    exception monad that records every Win32 call it makes; what the
    operating system answers comes from an oracle, one reply per call site.
    The properties are stated on the recorded trace, on what [main] returns
    and on what it writes to standard error. *)

From Stdlib Require Import ZArith List String Ascii Bool Lia Arith.
From Stdlib Require Import DecimalString DecimalN.
From Stdlib Require DecimalFacts.
Import ListNotations.

Local Open Scope string_scope.

(** ** Part 1: strings *)

Module Str.

(** The characters the source names by escape sequences. *)
Definition NUL : ascii := "000"%char.
Definition TAB : ascii := "009"%char.
Definition LF : ascii := "010"%char.
Definition CR : ascii := "013"%char.
Definition SPACE : ascii := "032"%char.
Definition DQUOTE : ascii := "034"%char.

(** [std::string::substr(pos)]: the characters from [pos] to the end.  The
    source only calls it with [pos <= size()], where it does not throw. *)
Definition substr (s : string) (pos : nat) : string :=
  substring pos (length s - pos) s.

(** [std::string::c_str()] read as a C string: the characters before the
    first NUL. *)
Fixpoint c_str (s : string) : string :=
  match s with
  | EmptyString => EmptyString
  | String c r => if Ascii.eqb c NUL then EmptyString else String c (c_str r)
  end.

(** [tolower] in the C locale: only A..Z change. *)
Definition tolower (c : ascii) : ascii :=
  let n := nat_of_ascii c in
  if (65 <=? n)%nat && (n <=? 90)%nat then ascii_of_nat (n + 32) else c.

Definition code (c : ascii) : Z := Z.of_nat (nat_of_ascii c).

(** [_stricmp]: compares the lower-cased characters one by one and returns
    the difference at the first place where they differ (0 when the strings
    are equal up to case). *)
Fixpoint _stricmp (a b : string) : Z :=
  match a, b with
  | EmptyString, EmptyString => 0
  | EmptyString, String cb _ => 0 - code (tolower cb)
  | String ca _, EmptyString => code (tolower ca)
  | String ca ra, String cb rb =>
      let d := (code (tolower ca) - code (tolower cb))%Z in
      if (d =? 0)%Z then _stricmp ra rb else d
  end.

(** [std::string::find_first_of(chars)]: the first position holding one of
    [chars]; [None] stands for [npos]. *)
Fixpoint mem_char (c : ascii) (chars : string) : bool :=
  match chars with
  | EmptyString => false
  | String d r => Ascii.eqb c d || mem_char c r
  end.

Fixpoint find_first_of (s chars : string) : option nat :=
  match s with
  | EmptyString => None
  | String c r =>
      if mem_char c chars then Some O
      else option_map S (find_first_of r chars)
  end.

(** Lines 37-46. *)
Definition enforceExeExtension (s : string) : string :=
  let exe := s in
  let len := length exe in
  if (len <? 4)%nat
     || negb (_stricmp (c_str (substr exe (len - 4))) ".exe" =? 0)%Z
  then exe ++ ".exe"
  else exe.

(** Lines 48-58.  The search set is the two characters space and tab. *)
Definition quoteArgument (arg : string) : string :=
  let space := find_first_of arg (String SPACE (String TAB EmptyString)) in
  match space with
  | Some _ => String DQUOTE EmptyString ++ arg ++ String DQUOTE EmptyString
  | None => arg
  end.

(** Lines 120-126: the loop [for (i = 3; i < argc; ++i)] over the remaining
    arguments, appending a space and the quoted argument each time. *)
Fixpoint appendArguments (commandLine : string) (rest : list string) : string :=
  match rest with
  | [] => commandLine
  | a :: rest' => appendArguments (commandLine ++ String SPACE EmptyString ++ quoteArgument a) rest'
  end.

Definition buildCommandLine (executable : string) (argv : list string) : string :=
  appendArguments (quoteArgument executable) (skipn 3 argv).

(** *** What the specification calls these notions *)

(** An argument contains whitespace: one of its characters is a space or a
    tab, the two characters that delimit arguments on a Windows command
    line. *)
Definition is_whitespace (c : ascii) : Prop := c = SPACE \/ c = TAB.

Fixpoint chars (s : string) : list ascii :=
  match s with
  | EmptyString => []
  | String c r => c :: chars r
  end.

Definition contains_whitespace (s : string) : Prop :=
  exists c, In c (chars s) /\ is_whitespace c.

(** A string holds no NUL, as every C string. *)
Definition nul_free (s : string) : Prop := mem_char NUL s = false.

(** Lower-casing a whole string: two strings are equal up to case when
    their images are equal. *)
Fixpoint lower (s : string) : string :=
  match s with
  | EmptyString => EmptyString
  | String c r => String (tolower c) (lower r)
  end.

(** A name ends in the executable extension, compared case-insensitively. *)
Definition ends_in_exe (s : string) : Prop :=
  exists stem ext, s = stem ++ ext /\ lower ext = ".exe".

(** The quoted path and the quoted arguments, joined by single spaces. *)
Definition space_joined (executable : string) (args : list string) : string :=
  concat (String SPACE EmptyString) (map quoteArgument (executable :: args)).

End Str.

(** ** Part 2: the Win32 calls of [main] *)

Local Open Scope Z_scope.

Definition DWORD := Z.   (* 32-bit unsigned: 0 .. 2^32 - 1 *)
Definition BOOL := Z.    (* 0 is FALSE, anything else is true *)
Definition HANDLE := Z.  (* an opaque pointer-sized value *)

(** Values of the Windows SDK headers for the names the source uses. *)
Module Win32.
Definition FALSE : BOOL := 0.
Definition TRUE : BOOL := 1.
Definition NULL : HANDLE := 0.
Definition INVALID_HANDLE_VALUE : HANDLE := -1.
Definition GENERIC_READ : DWORD := 0x80000000.
Definition FILE_SHARE_READ : DWORD := 0x1.
Definition OPEN_ALWAYS : DWORD := 4.
Definition FILE_ATTRIBUTE_READONLY : DWORD := 0x1.
Definition LOCKFILE_FAIL_IMMEDIATELY : DWORD := 0x1.
Definition LOCKFILE_EXCLUSIVE_LOCK : DWORD := 0x2.
Definition ERROR_ACCESS_DENIED : DWORD := 5.
Definition ERROR_LOCK_VIOLATION : DWORD := 33.
Definition MAX_PATH : Z := 260.
Definition STD_INPUT_HANDLE : DWORD := 2 ^ 32 - 10.
Definition STD_OUTPUT_HANDLE : DWORD := 2 ^ 32 - 11.
Definition STD_ERROR_HANDLE : DWORD := 2 ^ 32 - 12.
Definition CREATE_SUSPENDED : DWORD := 0x4.
Definition STARTF_USESTDHANDLES : DWORD := 0x100.
Definition JOB_OBJECT_LIMIT_KILL_ON_JOB_CLOSE : DWORD := 0x2000.
Definition INFINITE : DWORD := 0xFFFFFFFF.
Definition WAIT_FAILED : DWORD := 0xFFFFFFFF.
Definition FORMAT_MESSAGE_IGNORE_INSERTS : DWORD := 0x200.
Definition FORMAT_MESSAGE_FROM_SYSTEM : DWORD := 0x1000.
(** [MAKELANGID(LANG_NEUTRAL, SUBLANG_DEFAULT)] is [(1 << 10) | 0]. *)
Definition LANGID_NEUTRAL_DEFAULT : DWORD := Z.lor (Z.shiftl 1 10) 0.
End Win32.
Import Win32.

(** [OVERLAPPED]: for a file lock, [Offset] and [OffsetHigh] are the low and
    high halves of the position where the locked range starts. *)
Record OVERLAPPED := {
  Internal : Z;
  InternalHigh : Z;
  Offset : DWORD;
  OffsetHigh : DWORD;
  hEvent : HANDLE
}.

(** [ZeroMemory(&ol, sizeof(ol))]. *)
Definition zeroed_OVERLAPPED : OVERLAPPED :=
  {| Internal := 0; InternalHigh := 0; Offset := 0; OffsetHigh := 0; hEvent := 0 |}.

Record PROCESS_INFORMATION := {
  hProcess : HANDLE;
  hThread : HANDLE
}.

(** [STARTUPINFOA]: the flags, which the initialiser [{ sizeof(sia) }] of
    line 130 leaves at 0, and the three fields that the source assigns. *)
Record STARTUPINFOA := {
  dwFlags : DWORD;
  hStdInput : HANDLE;
  hStdOutput : HANDLE;
  hStdError : HANDLE
}.

(** A call to the operating system, with the arguments the source passes. *)
Inductive call : Type :=
| CreateFileA (lpFileName : string)
    (dwDesiredAccess dwShareMode dwCreationDisposition dwFlagsAndAttributes : DWORD)
| LockFileEx (hFile : HANDLE) (dwFlags dwReserved nBytesLow nBytesHigh : DWORD)
    (lpOverlapped : OVERLAPPED)
| Sleep (dwMilliseconds : DWORD)
| PathSearchAndQualifyA (pszPath : string) (cchBuf : Z)
| GetStdHandle (nStdHandle : DWORD)
| CreateProcessA (lpApplicationName lpCommandLine : string)
    (bInheritHandles : BOOL) (dwCreationFlags : DWORD) (lpStartupInfo : STARTUPINFOA)
| CreateJobObject
| SetInformationJobObject (hJob : HANDLE) (LimitFlags : DWORD)
| CloseHandle (hObject : HANDLE)
| AssignProcessToJobObject (hJob hProc : HANDLE)
| ResumeThread (hThr : HANDLE)
| WaitForSingleObject (hHandle : HANDLE) (dwMilliseconds : DWORD)
| GetExitCodeProcess (hProc : HANDLE)
| UnlockFileEx (hFile : HANDLE) (dwReserved nBytesLow nBytesHigh : DWORD)
    (lpOverlapped : OVERLAPPED)
| FormatMessageA (dwFlags dwMessageId dwLanguageId : DWORD) (nSize : Z).

(** One entry of the trace: the call, the value it returned, and the
    thread's last-error value when it returned. *)
Record event := Event {
  ev_call : call;
  ev_ret : Z;
  ev_err : DWORD
}.

(** What the operating system answers to a call: the returned value, what it
    wrote through the call's output pointer, and the thread's last-error
    value once the call is over. *)
Record reply (A : Type) := Reply {
  ret : Z;
  out : A;
  err : DWORD
}.
Arguments Reply {A} _ _ _.
Arguments ret {A} _.
Arguments out {A} _.
Arguments err {A} _.

(** The operating system as one execution of the program meets it.  Every
    call site of [main] is reached at most once, except [LockFileEx] inside
    the retry loop, whose replies are indexed by the loop counter [i].  The
    three [GetStdHandle] calls are told apart by their argument, and the
    reply of [FormatMessageA] depends on the error code it is asked
    about. *)
Record OS := {
  on_CreateFileA : reply unit;
  (** [LockFileEx] may leave a status in the two [Internal] members of the
      structure it is given; the offset members belong to the caller. *)
  on_LockFileEx : nat -> reply (Z * Z);
  (** The [std::string] operations allocate, and an allocation that fails
      throws: [Some w] is a [std::exception] with [what() = w].  They come
      in two groups with a call between them.  [on_string_alloc] is for
      line 107, before [PathSearchAndQualifyA] is called;
      [on_commandLine_alloc] is for lines 117-125, after that call has
      succeeded and before the first [GetStdHandle].  No call is made
      inside a group, so the trace does not tell which operation of the
      group threw. *)
  on_string_alloc : option string;
  on_PathSearchAndQualifyA : reply string;
  on_commandLine_alloc : option string;
  on_GetStdHandle : DWORD -> reply unit;
  on_CreateProcessA : reply PROCESS_INFORMATION;
  on_CreateJobObject : reply unit;
  on_SetInformationJobObject : reply unit;
  on_CloseHandle_job : reply unit;
  on_AssignProcessToJobObject : reply unit;
  on_ResumeThread : reply unit;
  on_WaitForSingleObject : reply unit;
  on_GetExitCodeProcess : reply DWORD;
  on_UnlockFileEx : reply unit;
  on_CloseHandle : reply unit;
  on_FormatMessageA : DWORD -> reply string
}.

(** The two exception classes the source catches.  A [Win32Error] holds
    the name of the operation, a string literal of the source, and the
    error code. *)
Inductive exn : Type :=
| Win32Error (what : string) (errorCode : DWORD)
| std_exception (what : string).

(** The state the program threads: the calls made so far (oldest first), the
    thread's last-error value, and what was written to [std::cerr]. *)
Record state := {
  trace : list event;
  lastError : DWORD;
  cerr : string
}.

Inductive result (A : Type) : Type :=
| Val (a : A)
| Exc (e : exn).
Arguments Val {A} _.
Arguments Exc {A} _.

Definition M (A : Type) : Type := state -> result A * state.

Definition mret {A} (a : A) : M A := fun st => (Val a, st).

Definition bind {A B} (m : M A) (k : A -> M B) : M B :=
  fun st => match m st with
            | (Val a, st') => k a st'
            | (Exc e, st') => (Exc e, st')
            end.

Definition throw {A} (e : exn) : M A := fun st => (Exc e, st).

Definition try_catch {A} (body : M A) (handler : exn -> M A) : M A :=
  fun st => match body st with
            | (Val a, st') => (Val a, st')
            | (Exc e, st') => handler e st'
            end.

Declare Scope cpp_scope.
Delimit Scope cpp_scope with cpp.
Notation "x <- m ;; k" := (bind m (fun x => k))
  (at level 61, m at next level, right associativity) : cpp_scope.
Notation "m ;; k" := (bind m (fun _ => k))
  (at level 61, right associativity) : cpp_scope.
Local Open Scope cpp_scope.

(** Making a call: it is recorded with its return value, and the last-error
    value becomes what the operating system left. *)
Definition syscall {A} (c : call) (r : reply A) : M (Z * A) :=
  fun st => (Val (ret r, out r),
             {| trace := trace st ++ [Event c (ret r) (err r)];
                lastError := err r;
                cerr := cerr st |}).

(** [Sleep] returns nothing and leaves the last-error value alone. *)
Definition sleep (ms : DWORD) : M unit :=
  fun st => (Val tt,
             {| trace := trace st ++ [Event (Sleep ms) 0 (lastError st)];
                lastError := lastError st;
                cerr := cerr st |}).

Definition GetLastError : M DWORD := fun st => (Val (lastError st), st).

(** [std::cerr << s]. *)
Definition cerr_write (s : string) : M unit :=
  fun st => (Val tt, {| trace := trace st; lastError := lastError st;
                        cerr := (cerr st ++ s)%string |}).

(** [if (cond) throw Win32Error(what, ::GetLastError());] *)
Definition throw_last_error_if (cond : bool) (what : string) : M unit :=
  if cond then e <- GetLastError ;; throw (Win32Error what e) else mret tt.

(** *** The retry loop, lines 82-101 *)

Definition lock_flags : DWORD := Z.lor LOCKFILE_EXCLUSIVE_LOCK LOCKFILE_FAIL_IMMEDIATELY.

(** The structure behind [&ol] after the operating system has written its
    status members. *)
Definition with_status (ol : OVERLAPPED) (status : Z * Z) : OVERLAPPED :=
  {| Internal := fst status; InternalHigh := snd status;
     Offset := Offset ol; OffsetHigh := OffsetHigh ol; hEvent := hEvent ol |}.

(** [for (int i = 0; i < 300; ++i)], by the number of iterations still to
    run: [remaining = 300 - i].  The result is [lockAcquired] and the
    structure [ol] as the loop leaves it. *)
Fixpoint lockLoop (os : OS) (f : HANDLE) (ol : OVERLAPPED)
    (remaining : nat) (i : nat) : M (bool * OVERLAPPED) :=
  match remaining with
  | O => mret (false, ol)
  | S remaining' =>
      r <- syscall (LockFileEx f lock_flags 0 1 0 ol) (on_LockFileEx os i) ;;
      let ol' := with_status ol (snd r) in
      if negb (fst r =? 0) then
        mret (true, ol')
      else
        lastError <- GetLastError ;;
        if lastError =? ERROR_LOCK_VIOLATION then
          sleep 1000 ;;
          lockLoop os f ol' remaining' (S i)
        else
          throw (Win32Error "LockFileEx" lastError)
  end.

(** *** The body of the [try] block, lines 63-196 *)

(** [main] returns [int]: a [DWORD] above [INT_MAX] wraps to a negative
    value. *)
Definition int_of_DWORD (d : DWORD) : Z :=
  if d <? 2 ^ 31 then d else d - 2 ^ 32.

(** [(DWORD)-1], what [ResumeThread] is compared with. *)
Definition DWORD_minus_1 : DWORD := 2 ^ 32 - 1.

Definition usage : string :=
  "usage: withlockfile <lockfile> <command> [args..]" ++ String Str.LF EmptyString.

(** [argv[i]]; the source reads it only for [i < argc]. *)
Definition arg (argv : list string) (i : nat) : string := nth i argv EmptyString.

(** Lines 107-196: what runs while the lock is held. *)
Definition locked_section (os : OS) (argv : list string)
    (f : HANDLE) (ol : OVERLAPPED) : M Z :=
  (match on_string_alloc os with
   | Some w => throw (std_exception w)
   | None => mret tt
   end) ;;
  let executable := Str.enforceExeExtension (arg argv 2) in
  r <- syscall (PathSearchAndQualifyA (Str.c_str executable) MAX_PATH)
         (on_PathSearchAndQualifyA os) ;;
  throw_last_error_if (fst r =? 0) "PathSearchAndQualifyA" ;;
  (match on_commandLine_alloc os with
   | Some w => throw (std_exception w)
   | None => mret tt
   end) ;;
  let executable := Str.c_str (snd r) in
  let commandLine := Str.buildCommandLine executable argv in
  e <- syscall (GetStdHandle STD_ERROR_HANDLE) (on_GetStdHandle os STD_ERROR_HANDLE) ;;
  o <- syscall (GetStdHandle STD_OUTPUT_HANDLE) (on_GetStdHandle os STD_OUTPUT_HANDLE) ;;
  i <- syscall (GetStdHandle STD_INPUT_HANDLE) (on_GetStdHandle os STD_INPUT_HANDLE) ;;
  let sia := {| dwFlags := 0; hStdInput := fst i; hStdOutput := fst o;
                hStdError := fst e |} in
  r <- syscall (CreateProcessA (Str.c_str executable) (Str.c_str commandLine)
                  TRUE CREATE_SUSPENDED sia) (on_CreateProcessA os) ;;
  throw_last_error_if (fst r =? FALSE) "CreateProcessA" ;;
  let pi := snd r in
  r <- syscall CreateJobObject (on_CreateJobObject os) ;;
  let jobObject := fst r in
  throw_last_error_if (jobObject =? NULL) "CreateJobObject" ;;
  r <- syscall (SetInformationJobObject jobObject
                  (Z.lor 0 JOB_OBJECT_LIMIT_KILL_ON_JOB_CLOSE))
         (on_SetInformationJobObject os) ;;
  (if fst r =? 0 then
     syscall (CloseHandle jobObject) (on_CloseHandle_job os) ;;
     throw_last_error_if true "SetInformationJobObject"
   else mret tt) ;;
  r <- syscall (AssignProcessToJobObject jobObject (hProcess pi))
         (on_AssignProcessToJobObject os) ;;
  lastError <- GetLastError ;;
  throw_last_error_if ((fst r =? 0) && negb (lastError =? ERROR_ACCESS_DENIED))
    "AssignProcessToJobObject" ;;
  r <- syscall (ResumeThread (hThread pi)) (on_ResumeThread os) ;;
  throw_last_error_if (fst r =? DWORD_minus_1) "ResumeThread" ;;
  r <- syscall (WaitForSingleObject (hProcess pi) INFINITE) (on_WaitForSingleObject os) ;;
  throw_last_error_if (fst r =? WAIT_FAILED) "WaitForSingleObject" ;;
  r <- syscall (GetExitCodeProcess (hProcess pi)) (on_GetExitCodeProcess os) ;;
  throw_last_error_if (fst r =? FALSE) "GetExitCodeProcess" ;;
  let exitCode := snd r in
  r <- syscall (UnlockFileEx f 0 1 0 ol) (on_UnlockFileEx os) ;;
  throw_last_error_if (fst r =? FALSE) "UnlockFileEx" ;;
  r <- syscall (CloseHandle f) (on_CloseHandle os) ;;
  throw_last_error_if (fst r =? FALSE) "CloseHandle" ;;
  mret (int_of_DWORD exitCode).

(** The number of attempts, the bound of the loop of line 83. *)
Definition attempts : nat := 300.

(** Lines 63-105, followed by [locked_section]. *)
Definition try_block (os : OS) (argv : list string) : M Z :=
  let argc := Z.of_nat (List.length argv) in
  if argc <? 3 then
    cerr_write usage ;;
    mret 1
  else
    r <- syscall (CreateFileA (arg argv 1) GENERIC_READ FILE_SHARE_READ
                    OPEN_ALWAYS FILE_ATTRIBUTE_READONLY) (on_CreateFileA os) ;;
    let f := fst r in
    throw_last_error_if (f =? INVALID_HANDLE_VALUE) "CreateFileA" ;;
    let ol := zeroed_OVERLAPPED in
    l <- lockLoop os f ol attempts 0 ;;
    let lockAcquired := fst l in
    let ol := snd l in
    (if negb lockAcquired
     then throw (Win32Error "LockFileEx" ERROR_LOCK_VIOLATION) else mret tt) ;;
    locked_section os argv f ol.

(** *** The two handlers, lines 197-229 *)

(** Lines 216-219: a message that ends in CR LF loses both. *)
Definition strip_crlf (buf : string) : string :=
  let len := String.length buf in
  if (1 <? len)%nat
     && match String.get (len - 2) buf, String.get (len - 1) buf with
        | Some c, Some d => Ascii.eqb c Str.CR && Ascii.eqb d Str.LF
        | _, _ => false
        end
  then String.substring 0 (len - 2) buf
  else buf.

(** [operator<<] on a [DWORD]: its decimal digits. *)
Definition decimal (d : DWORD) : string :=
  NilZero.string_of_uint (N.to_uint (Z.to_N d)).

Definition endl : string := String Str.LF EmptyString.

Definition error_line (what message : string) (errorCode : DWORD) : string :=
  "error: " ++ what ++ " failed: " ++ message ++ " (code " ++ decimal errorCode ++ ")".

Definition generic_error_line (what : string) : string :=
  "error: " ++ what.

Definition handler (os : OS) (e : exn) : M Z :=
  match e with
  | Win32Error what errorCode =>
      r <- syscall (FormatMessageA
                      (Z.lor FORMAT_MESSAGE_FROM_SYSTEM FORMAT_MESSAGE_IGNORE_INSERTS)
                      errorCode LANGID_NEUTRAL_DEFAULT (65536 / 2))
             (on_FormatMessageA os errorCode) ;;
      let buf := strip_crlf (Str.c_str (snd r)) in
      cerr_write (error_line what buf errorCode ++ endl) ;;
      mret (int_of_DWORD errorCode)
  | std_exception what =>
      cerr_write (generic_error_line what ++ endl) ;;
      mret 1
  end.

Definition main (os : OS) (argv : list string) : M Z :=
  try_catch (try_block os argv) (handler os).

(** *** Running the program *)

Definition start : state := {| trace := []; lastError := 0; cerr := EmptyString |}.

(** One execution: how the [try] block ended, what [main] returned, and the
    state it left. *)
Record execution := {
  ended : result Z;
  returned : Z;
  final : state
}.

Definition run (os : OS) (argv : list string) : execution :=
  let b := try_block os argv start in
  match main os argv start with
  | (Val v, st) => {| ended := fst b; returned := v; final := st |}
  | (Exc _, st) => {| ended := fst b; returned := 0; final := st |}
  end.

(** The exit status another process reads back: the returned [int] as an
    unsigned 32-bit value. *)
Definition exit_status (x : execution) : DWORD := returned x mod 2 ^ 32.

Definition calls (x : execution) : list event := trace (final x).
Definition stderr (x : execution) : string := cerr (final x).

(** A well-formed oracle answers with 32-bit values where the API does. *)
Definition is_DWORD (d : Z) : Prop := 0 <= d < 2 ^ 32.

(** An oracle in which every call succeeds at once: the lock is free, the
    executable is found as [path], the child exits with [exitCode]. *)
Definition ok : reply unit := Reply 1 tt 0.

Definition friendly (path : string) (exitCode : DWORD) : OS :=
  {| on_CreateFileA := Reply 100 tt 0;
     on_LockFileEx := fun _ => Reply 1 (0, 0) 0;
     on_string_alloc := None;
     on_PathSearchAndQualifyA := Reply 1 path 0;
     on_commandLine_alloc := None;
     on_GetStdHandle := fun n => Reply (n - 2 ^ 32 + 20) tt 0;
     on_CreateProcessA := Reply 1 {| hProcess := 200; hThread := 201 |} 0;
     on_CreateJobObject := Reply 300 tt 0;
     on_SetInformationJobObject := ok;
     on_CloseHandle_job := ok;
     on_AssignProcessToJobObject := ok;
     on_ResumeThread := Reply 1 tt 0;
     on_WaitForSingleObject := Reply 0 tt 0;
     on_GetExitCodeProcess := Reply 1 exitCode 0;
     on_UnlockFileEx := ok;
     on_CloseHandle := ok;
     on_FormatMessageA := fun _ => Reply 0 "0"%string 0 |}.

(** ** Part 3: reading a trace *)

(** The [i]-th attempt met a lock held by someone else. *)
Definition contention (os : OS) (i : nat) : Prop :=
  ret (on_LockFileEx os i) = 0 /\ err (on_LockFileEx os i) = ERROR_LOCK_VIOLATION.

(** The structure [ol] as attempt [i + j] of a loop entered at [i] with [ol]
    finds it. *)
Definition ol_seen (os : OS) (ol : OVERLAPPED) (i j : nat) : OVERLAPPED :=
  match j with
  | O => ol
  | S j' => with_status ol (out (on_LockFileEx os (i + j')))
  end.

(** A contended attempt and the sleep that follows it. *)
Definition retry (os : OS) (f : HANDLE) (ol : OVERLAPPED) (i j : nat) : list event :=
  [ Event (LockFileEx f lock_flags 0 1 0 (ol_seen os ol i j)) 0 ERROR_LOCK_VIOLATION;
    Event (Sleep 1000) 0 ERROR_LOCK_VIOLATION ].

(** [k] of them in a row. *)
Definition retries (os : OS) (f : HANDLE) (ol : OVERLAPPED) (i k : nat) : list event :=
  flat_map (retry os f ol i) (seq 0 k).

(** The attempt that ends the loop early, with whatever it returned. *)
Definition last_attempt (os : OS) (f : HANDLE) (ol : OVERLAPPED) (i k : nat) : event :=
  Event (LockFileEx f lock_flags 0 1 0 (ol_seen os ol i k))
        (ret (on_LockFileEx os (i + k))) (err (on_LockFileEx os (i + k))).

(** How the loop can end after [k] contended attempts. *)
Inductive loop_end (os : OS) (f : HANDLE) (ol : OVERLAPPED) (remaining i k : nat) (st : state) :
    result (bool * OVERLAPPED) * state -> Prop :=
| loop_acquired :
    (k < remaining)%nat ->
    ret (on_LockFileEx os (i + k)) <> 0 ->
    loop_end os f ol remaining i k st
      (Val (true, ol_seen os ol i (S k)),
       {| trace := (trace st ++ retries os f ol i k ++ [last_attempt os f ol i k])%list;
          lastError := err (on_LockFileEx os (i + k));
          cerr := cerr st |})
| loop_fatal :
    (k < remaining)%nat ->
    ret (on_LockFileEx os (i + k)) = 0 ->
    err (on_LockFileEx os (i + k)) <> ERROR_LOCK_VIOLATION ->
    loop_end os f ol remaining i k st
      (Exc (Win32Error "LockFileEx" (err (on_LockFileEx os (i + k)))),
       {| trace := (trace st ++ retries os f ol i k ++ [last_attempt os f ol i k])%list;
          lastError := err (on_LockFileEx os (i + k));
          cerr := cerr st |})
| loop_exhausted :
    k = remaining ->
    loop_end os f ol remaining i k st
      (Val (false, ol_seen os ol i k),
       {| trace := (trace st ++ retries os f ol i k)%list;
          lastError := match k with O => lastError st | S _ => ERROR_LOCK_VIOLATION end;
          cerr := cerr st |}).

(** *** Kinds of events *)

Definition is_LockFileEx (e : event) : bool :=
  match ev_call e with LockFileEx _ _ _ _ _ _ => true | _ => false end.

Definition is_Sleep (e : event) : bool :=
  match ev_call e with Sleep _ => true | _ => false end.

Definition is_UnlockFileEx (e : event) : bool :=
  match ev_call e with UnlockFileEx _ _ _ _ _ => true | _ => false end.

Definition is_CloseHandle_of (h : HANDLE) (e : event) : bool :=
  match ev_call e with CloseHandle h' => h' =? h | _ => false end.

Definition is_AssignProcessToJobObject (e : event) : bool :=
  match ev_call e with AssignProcessToJobObject _ _ => true | _ => false end.

Definition is_ResumeThread (e : event) : bool :=
  match ev_call e with ResumeThread _ => true | _ => false end.

(** The lock is acquired: a [LockFileEx] that returned true. *)
Definition acquires (e : event) : bool :=
  is_LockFileEx e && negb (ev_ret e =? 0).

(** The child is created, suspended. *)
Definition creates_suspended (e : event) : bool :=
  match ev_call e with
  | CreateProcessA _ _ _ flags _ => Z.testbit flags 2 && negb (ev_ret e =? FALSE)
  | _ => false
  end.

(** The child becomes a member of the job object. *)
Definition attaches (e : event) : bool :=
  is_AssignProcessToJobObject e && negb (ev_ret e =? 0).

(** The attachment was refused with [ERROR_ACCESS_DENIED]. *)
Definition attach_denied (e : event) : bool :=
  is_AssignProcessToJobObject e && (ev_ret e =? 0) && (ev_err e =? ERROR_ACCESS_DENIED).

(** The child starts to run. *)
Definition resumes (e : event) : bool :=
  is_ResumeThread e && negb (ev_ret e =? DWORD_minus_1).

(** The wait for the child is over: it has exited. *)
Definition sees_exit (e : event) : bool :=
  match ev_call e with
  | WaitForSingleObject _ _ => negb (ev_ret e =? WAIT_FAILED)
  | _ => false
  end.

(** The child's exit status is read. *)
Definition reads_exit_code (e : event) : bool :=
  match ev_call e with
  | GetExitCodeProcess _ => negb (ev_ret e =? FALSE)
  | _ => false
  end.

(** The lock is released. *)
Definition releases (e : event) : bool :=
  is_UnlockFileEx e && negb (ev_ret e =? FALSE).

(** The handle [h] is closed. *)
Definition closes (h : HANDLE) (e : event) : bool :=
  is_CloseHandle_of h e && negb (ev_ret e =? FALSE).

(** How each call reports that it failed, as the Win32 documentation has
    it.  [Sleep] cannot fail. *)
Definition failed (e : event) : bool :=
  match ev_call e with
  | CreateFileA _ _ _ _ _ => ev_ret e =? INVALID_HANDLE_VALUE
  | GetStdHandle _ => ev_ret e =? INVALID_HANDLE_VALUE
  | Sleep _ => false
  | ResumeThread _ => ev_ret e =? DWORD_minus_1
  | WaitForSingleObject _ _ => ev_ret e =? WAIT_FAILED
  | _ => ev_ret e =? 0
  end.

(** The name under which the source reports a failure of each call it
    checks; [None] for the calls whose result it does not look at. *)
Definition checked_as (h : HANDLE) (e : event) : option string :=
  match ev_call e with
  | CreateFileA _ _ _ _ _ => Some "CreateFileA"%string
  | LockFileEx _ _ _ _ _ _ => Some "LockFileEx"%string
  | PathSearchAndQualifyA _ _ => Some "PathSearchAndQualifyA"%string
  | CreateProcessA _ _ _ _ _ => Some "CreateProcessA"%string
  | CreateJobObject => Some "CreateJobObject"%string
  | SetInformationJobObject _ _ => Some "SetInformationJobObject"%string
  | AssignProcessToJobObject _ _ => Some "AssignProcessToJobObject"%string
  | ResumeThread _ => Some "ResumeThread"%string
  | WaitForSingleObject _ _ => Some "WaitForSingleObject"%string
  | GetExitCodeProcess _ => Some "GetExitCodeProcess"%string
  | UnlockFileEx _ _ _ _ _ => Some "UnlockFileEx"%string
  | CloseHandle h' => if h' =? h then Some "CloseHandle"%string else None
  | Sleep _ | GetStdHandle _ | FormatMessageA _ _ _ _ => None
  end.

(** The byte range a lock or unlock call names: the file, the 64-bit
    offset held in the [OVERLAPPED] structure, the 64-bit length. *)
Definition byte_range (c : call) : option (HANDLE * Z * Z) :=
  match c with
  | LockFileEx f _ _ low high ol
  | UnlockFileEx f _ low high ol =>
      Some (f,
            Z.lor (Z.shiftl (OffsetHigh ol) 32) (Offset ol),
            Z.lor (Z.shiftl high 32) low)
  | _ => None
  end.

(** *** Order *)

(** In [t], [P] happens strictly before [Q]: the first event that is [P] or
    [Q] is a [P] and not a [Q], and a [Q] follows it. *)
Fixpoint precedes (P Q : event -> bool) (t : list event) : bool :=
  match t with
  | [] => false
  | e :: t' =>
      if Q e then false
      else if P e then existsb Q t'
      else precedes P Q t'
  end.

Definition happens (P : event -> bool) (x : execution) : Prop :=
  existsb P (calls x) = true.

(** The execution ran through to [return exitCode] on line 196. *)
Definition completes (argv : list string) (x : execution) : Prop :=
  (3 <= List.length argv)%nat /\ exists v, ended x = Val v.

(** The file the program locks. *)
Definition lock_file (os : OS) : HANDLE := ret (on_CreateFileA os).

(** *** How the [try] block can end *)

(** The call that opens the lock file. *)
Definition opened (os : OS) (argv : list string) : event :=
  Event (CreateFileA (arg argv 1) GENERIC_READ FILE_SHARE_READ
           OPEN_ALWAYS FILE_ATTRIBUTE_READONLY)
        (ret (on_CreateFileA os)) (err (on_CreateFileA os)).

(** The trace up to the end of [k] contended attempts. *)
Definition prologue (os : OS) (argv : list string) (k : nat) : list event :=
  opened os argv :: retries os (lock_file os) zeroed_OVERLAPPED 0 k.

(** The attempt after [k] contended ones. *)
Definition deciding (os : OS) (k : nat) : event :=
  last_attempt os (lock_file os) zeroed_OVERLAPPED 0 k.

(** The state in which [locked_section] starts when attempt [k] succeeds. *)
Definition locked_state (os : OS) (argv : list string) (k : nat) : state :=
  {| trace := (prologue os argv k ++ [deciding os k])%list;
     lastError := err (on_LockFileEx os k);
     cerr := EmptyString |}.

Inductive try_block_end (os : OS) (argv : list string) : result Z * state -> Prop :=
| end_usage :
    (List.length argv < 3)%nat ->
    try_block_end os argv
      (Val 1, {| trace := []; lastError := 0; cerr := usage |})
| end_open_failed :
    (3 <= List.length argv)%nat ->
    lock_file os = INVALID_HANDLE_VALUE ->
    try_block_end os argv
      (Exc (Win32Error "CreateFileA" (err (on_CreateFileA os))),
       {| trace := [opened os argv];
          lastError := err (on_CreateFileA os);
          cerr := EmptyString |})
| end_lock_fatal (k : nat) :
    (3 <= List.length argv)%nat ->
    lock_file os <> INVALID_HANDLE_VALUE ->
    (k < attempts)%nat ->
    (forall j, (j < k)%nat -> contention os j) ->
    ret (on_LockFileEx os k) = 0 ->
    err (on_LockFileEx os k) <> ERROR_LOCK_VIOLATION ->
    try_block_end os argv
      (Exc (Win32Error "LockFileEx" (err (on_LockFileEx os k))), locked_state os argv k)
| end_lock_timeout :
    (3 <= List.length argv)%nat ->
    lock_file os <> INVALID_HANDLE_VALUE ->
    (forall j, (j < attempts)%nat -> contention os j) ->
    try_block_end os argv
      (Exc (Win32Error "LockFileEx" ERROR_LOCK_VIOLATION),
       {| trace := prologue os argv attempts;
          lastError := ERROR_LOCK_VIOLATION;
          cerr := EmptyString |})
| end_locked (k : nat) :
    (3 <= List.length argv)%nat ->
    lock_file os <> INVALID_HANDLE_VALUE ->
    (k < attempts)%nat ->
    (forall j, (j < k)%nat -> contention os j) ->
    ret (on_LockFileEx os k) <> 0 ->
    try_block_end os argv
      (locked_section os argv (lock_file os)
         (ol_seen os zeroed_OVERLAPPED 0 (S k)) (locked_state os argv k)).

(** The call by which the handler of [Win32Error] fetches the message. *)
Definition reported (os : OS) (errorCode : DWORD) : event :=
  Event (FormatMessageA
           (Z.lor FORMAT_MESSAGE_FROM_SYSTEM FORMAT_MESSAGE_IGNORE_INSERTS)
           errorCode LANGID_NEUTRAL_DEFAULT (65536 / 2))
        (ret (on_FormatMessageA os errorCode))
        (err (on_FormatMessageA os errorCode)).

(** The message the handler prints for [errorCode]. *)
Definition os_message (os : OS) (errorCode : DWORD) : string :=
  strip_crlf (Str.c_str (out (on_FormatMessageA os errorCode))).

(** How many events of a kind a trace holds. *)
Definition count (P : event -> bool) (t : list event) : nat :=
  List.length (filter P t).

(** The cleanup calls raise these two errors. *)
Definition raised_by_cleanup (e : exn) : bool :=
  match e with
  | Win32Error what _ =>
      String.eqb what "UnlockFileEx" || String.eqb what "CloseHandle"
  | std_exception _ => false
  end.

(** A contended attempt, as an event. *)
Definition contended (e : event) : bool :=
  is_LockFileEx e && (ev_ret e =? 0) && (ev_err e =? ERROR_LOCK_VIOLATION).

(** *** Statements of the specification that the code does not meet, as they are worded *)

(** Whenever the lock was acquired, it is unlocked and its handle closed
    before [main] returns. *)
Definition cleanup_on_every_path (os : OS) (argv : list string) : Prop :=
  let x := run os argv in
  happens acquires x ->
  happens is_UnlockFileEx x /\ happens (is_CloseHandle_of (lock_file os)) x.

(** Lock before child; child created, attached to the job, resumed and
    seen to exit, each strictly before the next; exit status read before the
    lock is released. *)
Definition ordered (t : list event) : Prop :=
  precedes acquires creates_suspended t = true /\
  precedes creates_suspended attaches t = true /\
  precedes attaches resumes t = true /\
  precedes resumes sees_exit t = true /\
  precedes sees_exit reads_exit_code t = true /\
  precedes reads_exit_code releases t = true.

Definition always_ordered (os : OS) (argv : list string) : Prop :=
  completes argv (run os argv) -> ordered (calls (run os argv)).

(** Every failed call ends the program with an error, unless it is a
    denied attachment or a contended attempt to take the lock, which the
    specification has as a kind of its own, recovered by retrying. *)
Definition only_attach_denial_tolerated (os : OS) (argv : list string) : Prop :=
  let x := run os argv in
  forall e, In e (calls x) -> failed e = true ->
            attach_denied e = false -> contended e = false ->
            exists what code, ended x = Exc (Win32Error what code).

(** When the [try] block ends with the error of an operation, the exit
    status is the error code that the failed call of that operation left.
    An attempt to take the lock that met contention is no such failure
    unless the error is the contention itself. *)
Definition status_is_the_error_code (os : OS) (argv : list string) : Prop :=
  let x := run os argv in
  forall e what code,
    ended x = Exc (Win32Error what code) ->
    In e (calls x) -> failed e = true ->
    checked_as (lock_file os) e = Some what ->
    (contended e = true -> code = ERROR_LOCK_VIOLATION) ->
    exit_status x = ev_err e.

(** *** Some operating systems *)

Definition set_LockFileEx (r : nat -> reply (Z * Z)) (os : OS) : OS :=
  {| on_CreateFileA := on_CreateFileA os;
     on_LockFileEx := r;
     on_string_alloc := on_string_alloc os;
     on_PathSearchAndQualifyA := on_PathSearchAndQualifyA os;
     on_commandLine_alloc := on_commandLine_alloc os;
     on_GetStdHandle := on_GetStdHandle os;
     on_CreateProcessA := on_CreateProcessA os;
     on_CreateJobObject := on_CreateJobObject os;
     on_SetInformationJobObject := on_SetInformationJobObject os;
     on_CloseHandle_job := on_CloseHandle_job os;
     on_AssignProcessToJobObject := on_AssignProcessToJobObject os;
     on_ResumeThread := on_ResumeThread os;
     on_WaitForSingleObject := on_WaitForSingleObject os;
     on_GetExitCodeProcess := on_GetExitCodeProcess os;
     on_UnlockFileEx := on_UnlockFileEx os;
     on_CloseHandle := on_CloseHandle os;
     on_FormatMessageA := on_FormatMessageA os |}.

Definition set_CreateProcessA (r : reply PROCESS_INFORMATION) (os : OS) : OS :=
  {| on_CreateFileA := on_CreateFileA os;
     on_LockFileEx := on_LockFileEx os;
     on_string_alloc := on_string_alloc os;
     on_PathSearchAndQualifyA := on_PathSearchAndQualifyA os;
     on_commandLine_alloc := on_commandLine_alloc os;
     on_GetStdHandle := on_GetStdHandle os;
     on_CreateProcessA := r;
     on_CreateJobObject := on_CreateJobObject os;
     on_SetInformationJobObject := on_SetInformationJobObject os;
     on_CloseHandle_job := on_CloseHandle_job os;
     on_AssignProcessToJobObject := on_AssignProcessToJobObject os;
     on_ResumeThread := on_ResumeThread os;
     on_WaitForSingleObject := on_WaitForSingleObject os;
     on_GetExitCodeProcess := on_GetExitCodeProcess os;
     on_UnlockFileEx := on_UnlockFileEx os;
     on_CloseHandle := on_CloseHandle os;
     on_FormatMessageA := on_FormatMessageA os |}.

Definition set_AssignProcessToJobObject (r : reply unit) (os : OS) : OS :=
  {| on_CreateFileA := on_CreateFileA os;
     on_LockFileEx := on_LockFileEx os;
     on_string_alloc := on_string_alloc os;
     on_PathSearchAndQualifyA := on_PathSearchAndQualifyA os;
     on_commandLine_alloc := on_commandLine_alloc os;
     on_GetStdHandle := on_GetStdHandle os;
     on_CreateProcessA := on_CreateProcessA os;
     on_CreateJobObject := on_CreateJobObject os;
     on_SetInformationJobObject := on_SetInformationJobObject os;
     on_CloseHandle_job := on_CloseHandle_job os;
     on_AssignProcessToJobObject := r;
     on_ResumeThread := on_ResumeThread os;
     on_WaitForSingleObject := on_WaitForSingleObject os;
     on_GetExitCodeProcess := on_GetExitCodeProcess os;
     on_UnlockFileEx := on_UnlockFileEx os;
     on_CloseHandle := on_CloseHandle os;
     on_FormatMessageA := on_FormatMessageA os |}.

Definition set_string_alloc (w : option string) (os : OS) : OS :=
  {| on_CreateFileA := on_CreateFileA os;
     on_LockFileEx := on_LockFileEx os;
     on_string_alloc := w;
     on_PathSearchAndQualifyA := on_PathSearchAndQualifyA os;
     on_commandLine_alloc := on_commandLine_alloc os;
     on_GetStdHandle := on_GetStdHandle os;
     on_CreateProcessA := on_CreateProcessA os;
     on_CreateJobObject := on_CreateJobObject os;
     on_SetInformationJobObject := on_SetInformationJobObject os;
     on_CloseHandle_job := on_CloseHandle_job os;
     on_AssignProcessToJobObject := on_AssignProcessToJobObject os;
     on_ResumeThread := on_ResumeThread os;
     on_WaitForSingleObject := on_WaitForSingleObject os;
     on_GetExitCodeProcess := on_GetExitCodeProcess os;
     on_UnlockFileEx := on_UnlockFileEx os;
     on_CloseHandle := on_CloseHandle os;
     on_FormatMessageA := on_FormatMessageA os |}.

Definition set_commandLine_alloc (w : option string) (os : OS) : OS :=
  {| on_CreateFileA := on_CreateFileA os;
     on_LockFileEx := on_LockFileEx os;
     on_string_alloc := on_string_alloc os;
     on_PathSearchAndQualifyA := on_PathSearchAndQualifyA os;
     on_commandLine_alloc := w;
     on_GetStdHandle := on_GetStdHandle os;
     on_CreateProcessA := on_CreateProcessA os;
     on_CreateJobObject := on_CreateJobObject os;
     on_SetInformationJobObject := on_SetInformationJobObject os;
     on_CloseHandle_job := on_CloseHandle_job os;
     on_AssignProcessToJobObject := on_AssignProcessToJobObject os;
     on_ResumeThread := on_ResumeThread os;
     on_WaitForSingleObject := on_WaitForSingleObject os;
     on_GetExitCodeProcess := on_GetExitCodeProcess os;
     on_UnlockFileEx := on_UnlockFileEx os;
     on_CloseHandle := on_CloseHandle os;
     on_FormatMessageA := on_FormatMessageA os |}.

Definition set_GetStdHandle (r : DWORD -> reply unit) (os : OS) : OS :=
  {| on_CreateFileA := on_CreateFileA os;
     on_LockFileEx := on_LockFileEx os;
     on_string_alloc := on_string_alloc os;
     on_PathSearchAndQualifyA := on_PathSearchAndQualifyA os;
     on_commandLine_alloc := on_commandLine_alloc os;
     on_GetStdHandle := r;
     on_CreateProcessA := on_CreateProcessA os;
     on_CreateJobObject := on_CreateJobObject os;
     on_SetInformationJobObject := on_SetInformationJobObject os;
     on_CloseHandle_job := on_CloseHandle_job os;
     on_AssignProcessToJobObject := on_AssignProcessToJobObject os;
     on_ResumeThread := on_ResumeThread os;
     on_WaitForSingleObject := on_WaitForSingleObject os;
     on_GetExitCodeProcess := on_GetExitCodeProcess os;
     on_UnlockFileEx := on_UnlockFileEx os;
     on_CloseHandle := on_CloseHandle os;
     on_FormatMessageA := on_FormatMessageA os |}.

Definition set_FormatMessageA (r : DWORD -> reply string) (os : OS) : OS :=
  {| on_CreateFileA := on_CreateFileA os;
     on_LockFileEx := on_LockFileEx os;
     on_string_alloc := on_string_alloc os;
     on_PathSearchAndQualifyA := on_PathSearchAndQualifyA os;
     on_commandLine_alloc := on_commandLine_alloc os;
     on_GetStdHandle := on_GetStdHandle os;
     on_CreateProcessA := on_CreateProcessA os;
     on_CreateJobObject := on_CreateJobObject os;
     on_SetInformationJobObject := on_SetInformationJobObject os;
     on_CloseHandle_job := on_CloseHandle_job os;
     on_AssignProcessToJobObject := on_AssignProcessToJobObject os;
     on_ResumeThread := on_ResumeThread os;
     on_WaitForSingleObject := on_WaitForSingleObject os;
     on_GetExitCodeProcess := on_GetExitCodeProcess os;
     on_UnlockFileEx := on_UnlockFileEx os;
     on_CloseHandle := on_CloseHandle os;
     on_FormatMessageA := r |}.

Definition tool : string := "C:\tools\tool.exe".

(** The command line of the examples: [withlockfile lock.txt tool a "b c"]. *)
Definition example_argv : list string :=
  ["withlockfile"; "lock.txt"; "tool"; "a"; "b c"]%string.

(** The executable is found but cannot be started (error 2). *)
Definition cannot_start : OS :=
  set_CreateProcessA (Reply 0 {| hProcess := 0; hThread := 0 |} 2) (friendly tool 0).

(** The program is itself inside a job that does not allow a nested one:
    the attachment is refused with [ERROR_ACCESS_DENIED]. *)
Definition inside_a_job : OS :=
  set_AssignProcessToJobObject (Reply 0 tt ERROR_ACCESS_DENIED) (friendly tool 0).

(** Someone else holds the lock during the first attempt only. *)
Definition busy_once : OS :=
  set_LockFileEx (fun i => match i with
                           | O => Reply 0 (0, 0) ERROR_LOCK_VIOLATION
                           | S _ => Reply 1 (0, 0) 0
                           end) (friendly tool 0).

(** Someone else holds the lock for good. *)
Definition always_busy : OS :=
  set_LockFileEx (fun _ => Reply 0 (0, 0) ERROR_LOCK_VIOLATION) (friendly tool 0).

(** Memory runs out on line 107, where the name of the executable is
    copied. *)
Definition out_of_memory : OS :=
  set_string_alloc (Some "std::bad_alloc"%string) (friendly tool 0).

(** Memory runs out while the command line is built, on lines 120-125. *)
Definition out_of_memory_later : OS :=
  set_commandLine_alloc (Some "std::bad_alloc"%string) (friendly tool 0).

(** What happens before the lock is held: the file is opened, attempts
    fail, the program sleeps. *)
Definition preliminary (e : event) : bool :=
  match ev_call e with
  | CreateFileA _ _ _ _ _ => true
  | Sleep _ => true
  | LockFileEx _ _ _ _ _ _ => ev_ret e =? 0
  | _ => false
  end.

(** The kinds of events that belong to the time after the acquisition. *)
Definition later_kind (P : event -> bool) : Prop :=
  forall e, preliminary e = true -> P e = false.


(** *** More ways to read a trace *)

(** The name of the API a call goes to. *)
Definition api (c : call) : string :=
  match c with
  | CreateFileA _ _ _ _ _ => "CreateFileA"
  | LockFileEx _ _ _ _ _ _ => "LockFileEx"
  | Sleep _ => "Sleep"
  | PathSearchAndQualifyA _ _ => "PathSearchAndQualifyA"
  | GetStdHandle _ => "GetStdHandle"
  | CreateProcessA _ _ _ _ _ => "CreateProcessA"
  | CreateJobObject => "CreateJobObject"
  | SetInformationJobObject _ _ => "SetInformationJobObject"
  | CloseHandle _ => "CloseHandle"
  | AssignProcessToJobObject _ _ => "AssignProcessToJobObject"
  | ResumeThread _ => "ResumeThread"
  | WaitForSingleObject _ _ => "WaitForSingleObject"
  | GetExitCodeProcess _ => "GetExitCodeProcess"
  | UnlockFileEx _ _ _ _ _ => "UnlockFileEx"
  | FormatMessageA _ _ _ _ => "FormatMessageA"
  end%string.

(** The events that are calls to the API [name]. *)
Definition calls_to (name : string) (e : event) : bool :=
  String.eqb (api (ev_call e)) name.

(** The names of the calls of a trace, in order. *)
Definition apis (t : list event) : list string := map (fun e => api (ev_call e)) t.

(** The job object. *)
Definition job (os : OS) : HANDLE := ret (on_CreateJobObject os).

(** The job object [h] has been told to kill its processes when its last
    handle is closed. *)
Definition sets_kill_on_close (h : HANDLE) (e : event) : bool :=
  match ev_call e with
  | SetInformationJobObject h' flags =>
      (h' =? h) && (flags =? JOB_OBJECT_LIMIT_KILL_ON_JOB_CLOSE)
      && negb (ev_ret e =? 0)
  | _ => false
  end.

Definition is_SetInformationJobObject (e : event) : bool :=
  match ev_call e with SetInformationJobObject _ _ => true | _ => false end.

(** The child. *)
Definition child (os : OS) : PROCESS_INFORMATION := out (on_CreateProcessA os).

(** The path of the executable as the program holds it after the lookup. *)
Definition resolved (os : OS) : string := Str.c_str (out (on_PathSearchAndQualifyA os)).

(** A string ends in CR LF. *)
Definition ends_in_crlf (s : string) : Prop :=
  exists m, s = (m ++ String Str.CR (String Str.LF EmptyString))%string.

(** [INT_MIN] and [INT_MAX] of a 32-bit [int]. *)
Definition INT_MIN : Z := - 2 ^ 31.
Definition INT_MAX : Z := 2 ^ 31 - 1.

(** Reading back the decimal digits of a number. *)
Definition read_decimal (s : string) : option Z :=
  option_map (fun u => Z.of_N (N.of_uint u)) (NilZero.uint_of_string s).

Definition set_CreateFileA (r : reply unit) (os : OS) : OS :=
  {| on_CreateFileA := r;
     on_LockFileEx := on_LockFileEx os;
     on_string_alloc := on_string_alloc os;
     on_PathSearchAndQualifyA := on_PathSearchAndQualifyA os;
     on_commandLine_alloc := on_commandLine_alloc os;
     on_GetStdHandle := on_GetStdHandle os;
     on_CreateProcessA := on_CreateProcessA os;
     on_CreateJobObject := on_CreateJobObject os;
     on_SetInformationJobObject := on_SetInformationJobObject os;
     on_CloseHandle_job := on_CloseHandle_job os;
     on_AssignProcessToJobObject := on_AssignProcessToJobObject os;
     on_ResumeThread := on_ResumeThread os;
     on_WaitForSingleObject := on_WaitForSingleObject os;
     on_GetExitCodeProcess := on_GetExitCodeProcess os;
     on_UnlockFileEx := on_UnlockFileEx os;
     on_CloseHandle := on_CloseHandle os;
     on_FormatMessageA := on_FormatMessageA os |}.

Definition set_SetInformationJobObject (r c : reply unit) (os : OS) : OS :=
  {| on_CreateFileA := on_CreateFileA os;
     on_LockFileEx := on_LockFileEx os;
     on_string_alloc := on_string_alloc os;
     on_PathSearchAndQualifyA := on_PathSearchAndQualifyA os;
     on_commandLine_alloc := on_commandLine_alloc os;
     on_GetStdHandle := on_GetStdHandle os;
     on_CreateProcessA := on_CreateProcessA os;
     on_CreateJobObject := on_CreateJobObject os;
     on_SetInformationJobObject := r;
     on_CloseHandle_job := c;
     on_AssignProcessToJobObject := on_AssignProcessToJobObject os;
     on_ResumeThread := on_ResumeThread os;
     on_WaitForSingleObject := on_WaitForSingleObject os;
     on_GetExitCodeProcess := on_GetExitCodeProcess os;
     on_UnlockFileEx := on_UnlockFileEx os;
     on_CloseHandle := on_CloseHandle os;
     on_FormatMessageA := on_FormatMessageA os |}.

(** The directory of the lock file does not exist (error 3). *)
Definition no_such_directory : OS :=
  set_CreateFileA (Reply INVALID_HANDLE_VALUE tt 3) (friendly tool 0).

(** What [FormatMessageA] writes for some codes on an English system: the
    message, CR and LF; it returns the number of characters written.  For
    a code it has no message for, it fails and leaves the buffer as it
    is, holding ["0"]. *)
Definition message_text (code : DWORD) : option string :=
  if code =? 0 then Some "The operation completed successfully."
  else if code =? 2 then Some "The system cannot find the file specified."
  else if code =? 5 then Some "Access is denied."
  else if code =? 6 then Some "The handle is invalid."
  else if code =? 87 then Some "The parameter is incorrect."
  else None.

Definition english (code : DWORD) : reply string :=
  match message_text code with
  | Some m =>
      Reply (Z.of_nat (String.length m) + 2)
            (m ++ String Str.CR (String Str.LF EmptyString)) 0
  | None => Reply 0 "0" 317
  end.

(** The job object cannot be configured (error 87); closing its handle
    then succeeds and leaves the last-error value at 0. *)
Definition job_not_configurable : OS :=
  set_SetInformationJobObject (Reply 0 tt 87) (Reply 1 tt 0)
    (set_FormatMessageA english (friendly tool 0)).

(** The program has no standard handles: [GetStdHandle] fails with
    [ERROR_INVALID_HANDLE] (6) for each of the three. *)
Definition no_standard_handles : OS :=
  set_GetStdHandle (fun _ => Reply INVALID_HANDLE_VALUE tt 6) (friendly tool 0).

(** A wait without timeout for the process [h] has returned. *)
Definition waited_for (h : HANDLE) (e : event) : bool :=
  match ev_call e with
  | WaitForSingleObject h' ms =>
      (h' =? h) && (ms =? INFINITE) && negb (ev_ret e =? WAIT_FAILED)
  | _ => false
  end.

(** ** Part 4: properties of the string helpers *)

Module StrFacts.
Import Str.
Local Open Scope string_scope.
Local Open Scope nat_scope.

Lemma length_app (a b : string) : length (a ++ b) = length a + length b.
Proof. induction a as [|c a IH]; simpl; [reflexivity | now rewrite IH]. Qed.

Lemma app_assoc (a b c : string) : (a ++ b) ++ c = a ++ (b ++ c).
Proof. induction a as [|x a IH]; simpl; [reflexivity | now rewrite IH]. Qed.

Lemma app_empty_r (a : string) : a ++ "" = a.
Proof. induction a as [|x a IH]; simpl; [reflexivity | now rewrite IH]. Qed.

Lemma length_lower (s : string) : length (lower s) = length s.
Proof. induction s as [|c s IH]; simpl; [reflexivity | now rewrite IH]. Qed.

Lemma substring_all (s : string) : substring 0 (length s) s = s.
Proof. induction s as [|c s IH]; simpl; [reflexivity | now rewrite IH]. Qed.

(** [substr] at the end of a prefix returns what follows the prefix. *)
Lemma substr_app (a b : string) : substr (a ++ b) (length a) = b.
Proof.
  unfold substr. rewrite length_app.
  replace (length a + length b - length a) with (length b) by lia.
  induction a as [|c a IH]; simpl; [apply substring_all | exact IH].
Qed.

(** Every string splits at any position within it. *)
Lemma split_at (s : string) (n : nat) :
  n <= length s -> s = substring 0 n s ++ substr s n.
Proof.
  revert n; induction s as [|c s IH]; intros n Hn.
  - simpl in Hn. assert (n = 0) by lia. subst. reflexivity.
  - destruct n as [|n].
    + unfold substr. simpl. now rewrite substring_all.
    + simpl in Hn. simpl. f_equal. apply IH. lia.
Qed.

Lemma length_substr (s : string) (n : nat) :
  n <= length s -> length (substr s n) = length s - n.
Proof.
  intro Hn. pose proof (split_at s n Hn) as E.
  apply (f_equal length) in E. rewrite length_app in E.
  assert (length (substring 0 n s) = n).
  { clear E. revert n Hn. induction s as [|c s IH]; intros [|n] Hn; simpl in *;
      try reflexivity; try lia. f_equal. apply IH. lia. }
  lia.
Qed.

(** *** Characters *)

Lemma code_inj (a b : ascii) : code a = code b -> a = b.
Proof.
  unfold code. intro H. apply Nat2Z.inj in H.
  rewrite <- (ascii_nat_embedding a), <- (ascii_nat_embedding b). now rewrite H.
Qed.

Lemma code_diff_zero (a b : ascii) :
  ((code a - code b =? 0)%Z = true) <-> a = b.
Proof.
  rewrite Z.eqb_eq. split.
  - intro H. apply code_inj. lia.
  - intros ->. lia.
Qed.

Lemma tolower_NUL (c : ascii) : tolower c = NUL -> c = NUL.
Proof.
  destruct c as [[] [] [] [] [] [] [] []]; vm_compute; intro H;
    first [reflexivity | discriminate H].
Qed.

(** *** C strings *)

Lemma c_str_nul_free (s : string) : nul_free (c_str s).
Proof.
  unfold nul_free. induction s as [|c s IH]; cbn [c_str mem_char]; [reflexivity|].
  destruct (Ascii.eqb c NUL) eqn:E; cbn [mem_char]; [reflexivity|].
  rewrite Ascii.eqb_sym, E. exact IH.
Qed.

Lemma c_str_id (s : string) : nul_free s -> c_str s = s.
Proof.
  unfold nul_free. induction s as [|c s IH]; cbn [c_str mem_char]; [reflexivity|].
  intro H. apply orb_false_iff in H as [H1 H2].
  rewrite Ascii.eqb_sym, H1. f_equal. now apply IH.
Qed.

Lemma length_c_str (s : string) : length (c_str s) <= length s.
Proof.
  induction s as [|c s IH]; simpl; [lia|].
  destruct (Ascii.eqb c NUL); simpl; lia.
Qed.

(** Reading as a C string loses nothing exactly when the length is kept. *)
Lemma c_str_same_length (s : string) : length (c_str s) = length s -> c_str s = s.
Proof.
  induction s as [|c s IH]; simpl; [reflexivity|].
  destruct (Ascii.eqb c NUL); simpl; intro H; [discriminate|].
  f_equal. apply IH. lia.
Qed.

Lemma lower_nul_free (s : string) : nul_free (lower s) -> nul_free s.
Proof.
  unfold nul_free. induction s as [|c s IH]; cbn [lower mem_char]; [reflexivity|].
  intro H. apply orb_false_iff in H as [H1 H2].
  apply orb_false_iff. split; [|now apply IH].
  apply Ascii.eqb_neq. apply Ascii.eqb_neq in H1.
  intro E. apply H1. subst c. reflexivity.
Qed.

(** On C strings [_stricmp] returns 0 exactly for strings equal up to
    case. *)
Lemma _stricmp_zero (a b : string) :
  nul_free a -> nul_free b -> (_stricmp a b = 0%Z <-> lower a = lower b).
Proof.
  unfold nul_free. revert b.
  induction a as [|x a IH]; intros [|y b] Ha Hb; cbn [_stricmp lower mem_char] in *.
  - tauto.
  - apply orb_false_iff in Hb as [Hy _]. apply Ascii.eqb_neq in Hy.
    split; [|discriminate]. intro H. exfalso. apply Hy. symmetry.
    apply tolower_NUL. apply code_inj. change (code NUL) with 0%Z. lia.
  - apply orb_false_iff in Ha as [Hx _]. apply Ascii.eqb_neq in Hx.
    split; [|discriminate]. intro H. exfalso. apply Hx. symmetry.
    apply tolower_NUL. apply code_inj. change (code NUL) with 0%Z. lia.
  - apply orb_false_iff in Ha as [_ Ha]. apply orb_false_iff in Hb as [_ Hb].
    destruct (code (tolower x) - code (tolower y) =? 0)%Z eqn:E.
    + apply code_diff_zero in E. rewrite E, (IH b Ha Hb).
      split; [intros ->; reflexivity | intro H; now inversion H].
    + split.
      * intro H. rewrite H in E. discriminate E.
      * intro H. inversion H as [[H1 H2]]. rewrite H1, Z.sub_diag in E. discriminate E.
Qed.

(** *** [enforceExeExtension] *)

Lemma lower_exe : lower ".exe" = ".exe".
Proof. reflexivity. Qed.

Lemma exe_nul_free : nul_free ".exe".
Proof. reflexivity. Qed.

Lemma ends_in_exe_length (s : string) : ends_in_exe s -> 4 <= length s.
Proof.
  intros (stem & ext & -> & H). apply (f_equal length) in H.
  rewrite length_lower in H. rewrite length_app. simpl in H. lia.
Qed.

(** The test of line 41-42 is the negation of [ends_in_exe]. *)
Lemma extension_test (s : string) :
  ((length s <? 4) || negb (_stricmp (c_str (substr s (length s - 4))) ".exe" =? 0)%Z) = false
  <-> ends_in_exe s.
Proof.
  rewrite orb_false_iff, Nat.ltb_ge, negb_false_iff, Z.eqb_eq. split.
  - intros [Hlen Hcmp].
    apply _stricmp_zero in Hcmp; [|apply c_str_nul_free|apply exe_nul_free].
    rewrite lower_exe in Hcmp.
    assert (Hl : length (substr s (length s - 4)) = 4)
      by (rewrite length_substr; lia).
    assert (Hc : c_str (substr s (length s - 4)) = substr s (length s - 4)).
    { apply c_str_same_length. rewrite Hl, <- length_lower, Hcmp. reflexivity. }
    rewrite Hc in Hcmp.
    exists (substring 0 (length s - 4) s), (substr s (length s - 4)).
    split; [apply split_at; lia | exact Hcmp].
  - intros H. pose proof (ends_in_exe_length s H) as Hlen. split; [exact Hlen|].
    destruct H as (stem & ext & -> & H).
    assert (Hl : length ext = 4)
      by (rewrite <- length_lower, H; reflexivity).
    rewrite length_app, Hl. replace (length stem + 4 - 4) with (length stem) by lia.
    rewrite substr_app.
    assert (Hn : nul_free ext)
      by (apply lower_nul_free; rewrite H; apply exe_nul_free).
    rewrite (c_str_id _ Hn).
    apply _stricmp_zero; [exact Hn | apply exe_nul_free | now rewrite lower_exe].
Qed.

Lemma enforce_present (s : string) : ends_in_exe s -> enforceExeExtension s = s.
Proof.
  intro H. apply extension_test in H. unfold enforceExeExtension.
  cbv zeta. now rewrite H.
Qed.

Lemma enforce_absent (s : string) :
  ~ ends_in_exe s -> enforceExeExtension s = s ++ ".exe".
Proof.
  intro H. unfold enforceExeExtension. cbv zeta.
  destruct ((length s <? 4) || _) eqn:E; [reflexivity|].
  apply extension_test in E. contradiction.
Qed.

Lemma ends_in_exe_dec (s : string) : ends_in_exe s \/ ~ ends_in_exe s.
Proof.
  destruct ((length s <? 4)
            || negb (_stricmp (c_str (substr s (length s - 4))) ".exe" =? 0)%Z) eqn:E.
  - right. intro H. apply extension_test in H. congruence.
  - left. now apply extension_test.
Qed.

Lemma appended_ends_in_exe (s : string) : ends_in_exe (s ++ ".exe").
Proof. exists s, ".exe". split; reflexivity. Qed.

Lemma app_exe_neq (s : string) : s ++ ".exe" <> s.
Proof.
  intro H. apply (f_equal length) in H. rewrite length_app in H. simpl in H. lia.
Qed.

(** C7.  [enforceExeExtension] appends ".exe" exactly when the name does not
    already end in it, compared case-insensitively, and returns the name
    unchanged exactly when it does; hence a name without the extension
    normalizes to the same string as that name followed by ".exe", and
    normalizing twice is the same as normalizing once. *)
Theorem enforceExeExtension_normalizes (s : string) :
  (enforceExeExtension s = s ++ ".exe" <-> ~ ends_in_exe s) /\
  (enforceExeExtension s = s <-> ends_in_exe s) /\
  (~ ends_in_exe s -> enforceExeExtension s = enforceExeExtension (s ++ ".exe")) /\
  enforceExeExtension (enforceExeExtension s) = enforceExeExtension s.
Proof.
  destruct (ends_in_exe_dec s) as [Hy | Hn].
  - pose proof (enforce_present s Hy) as E. repeat split.
    + intros H1 H2. rewrite E in H1. symmetry in H1. now apply app_exe_neq in H1.
    + intro H. contradiction.
    + intros _. exact Hy.
    + intros _. exact E.
    + intro H. contradiction.
    + now rewrite E.
  - pose proof (enforce_absent s Hn) as E.
    pose proof (enforce_present _ (appended_ends_in_exe s)) as E'. repeat split.
    + intros _. exact Hn.
    + intros _. exact E.
    + intro H. rewrite E in H. now apply app_exe_neq in H.
    + intro H. contradiction.
    + intros _. now rewrite E, E'.
    + now rewrite E, E'.
Qed.

(** *** [quoteArgument] and the command line *)

Lemma mem_char_whitespace (c : ascii) :
  mem_char c (String SPACE (String TAB EmptyString)) = true <-> is_whitespace c.
Proof.
  unfold is_whitespace. cbn [mem_char].
  rewrite !orb_true_iff, !Ascii.eqb_eq. intuition discriminate.
Qed.

(** [find_first_of] finds a position exactly when the argument contains
    whitespace. *)
Lemma find_first_of_whitespace (a : string) :
  find_first_of a (String SPACE (String TAB EmptyString)) <> None
  <-> contains_whitespace a.
Proof.
  unfold contains_whitespace. induction a as [|c a IH]; cbn [find_first_of chars].
  - split; [congruence | intros (c & [] & _)].
  - destruct (mem_char c _) eqn:E.
    + split; [|congruence]. intros _. exists c. split; [now left|].
      now apply mem_char_whitespace.
    + destruct (find_first_of a _) as [n|]; cbn [option_map].
      * split; [|congruence]. intros _.
        destruct (proj1 IH ltac:(congruence)) as (d & Hd & Hw).
        exists d. split; [now right | exact Hw].
      * split; [congruence|]. intros (d & [-> | Hd] & Hw).
        -- apply mem_char_whitespace in Hw. congruence.
        -- apply IH. now exists d.
Qed.

Lemma appendArguments_joined (commandLine : string) (rest : list string) :
  appendArguments commandLine rest
  = concat (String SPACE EmptyString) (commandLine :: map quoteArgument rest).
Proof.
  revert commandLine. induction rest as [|a rest IH]; intro commandLine.
  - reflexivity.
  - cbn [appendArguments]. rewrite IH. cbn [map concat].
    destruct (map quoteArgument rest); rewrite ?app_assoc; reflexivity.
Qed.

(** [quoteArgument] by cases. *)
Lemma quoteArgument_cases (a : string) :
  (contains_whitespace a ->
   quoteArgument a = String DQUOTE EmptyString ++ a ++ String DQUOTE EmptyString) /\
  (~ contains_whitespace a -> quoteArgument a = a).
Proof.
  unfold quoteArgument. cbv zeta.
  pose proof (find_first_of_whitespace a) as H.
  destruct (find_first_of a _) as [n|].
  - split; [reflexivity|]. intro Hn. exfalso. apply Hn, H. congruence.
  - split; [|reflexivity]. intro Hy. apply H in Hy. congruence.
Qed.

Lemma buildCommandLine_joined (executable : string) (argv : list string) :
  buildCommandLine executable argv = space_joined executable (skipn 3 argv).
Proof. unfold buildCommandLine, space_joined. apply appendArguments_joined. Qed.

End StrFacts.

(** ** Part 5: the retry loop *)

Section Loop.
Variable os : OS.
Variable f : HANDLE.
Local Open Scope list_scope.

Lemma with_status_twice (ol : OVERLAPPED) (a b : Z * Z) :
  with_status (with_status ol a) b = with_status ol b.
Proof. reflexivity. Qed.

Lemma ol_seen_shift (ol : OVERLAPPED) (i j : nat) :
  ol_seen os (with_status ol (out (on_LockFileEx os i))) (S i) j
  = ol_seen os ol i (S j).
Proof.
  destruct j as [|j]; cbn [ol_seen].
  - now rewrite Nat.add_0_r.
  - rewrite with_status_twice. now rewrite Nat.add_succ_r.
Qed.

Lemma retry_shift (ol : OVERLAPPED) (i j : nat) :
  retry os f (with_status ol (out (on_LockFileEx os i))) (S i) j
  = retry os f ol i (S j).
Proof. unfold retry. now rewrite ol_seen_shift. Qed.

Lemma retries_shift (ol : OVERLAPPED) (i k : nat) :
  retries os f ol i (S k)
  = retry os f ol i 0
    ++ retries os f (with_status ol (out (on_LockFileEx os i))) (S i) k.
Proof.
  unfold retries. cbn [seq flat_map]. f_equal.
  rewrite <- seq_shift, flat_map_concat_map, map_map, <- flat_map_concat_map.
  apply flat_map_ext. intro j. symmetry. apply retry_shift.
Qed.

Lemma last_attempt_shift (ol : OVERLAPPED) (i k : nat) :
  last_attempt os f (with_status ol (out (on_LockFileEx os i))) (S i) k
  = last_attempt os f ol i (S k).
Proof.
  unfold last_attempt. rewrite ol_seen_shift. now rewrite Nat.add_succ_r.
Qed.

Lemma lockLoop_end (remaining : nat) :
  forall (ol : OVERLAPPED) (i : nat) (st : state),
  exists k, (k <= remaining)%nat
            /\ (forall j, (j < k)%nat -> contention os (i + j))
            /\ loop_end os f ol remaining i k st (lockLoop os f ol remaining i st).
Proof.
  induction remaining as [|n IH]; intros ol i st.
  - exists O. split; [lia|]. split; [intros j Hj; lia|].
    destruct st as [t le ce]. cbn.
    pose proof (loop_exhausted os f ol 0 i 0 {| trace := t; lastError := le; cerr := ce |} eq_refl) as H.
    cbn in H. rewrite app_nil_r in H. exact H.
  - cbn [lockLoop]. unfold bind at 1. cbn [syscall fst snd].
    destruct (ret (on_LockFileEx os i) =? 0) eqn:Eret; cbn [negb].
    + apply Z.eqb_eq in Eret.
      unfold bind at 1. cbn [GetLastError lastError].
      destruct (err (on_LockFileEx os i) =? ERROR_LOCK_VIOLATION) eqn:Eerr.
      * apply Z.eqb_eq in Eerr.
        unfold bind at 1. cbn [sleep trace lastError cerr].
        rewrite Eret, Eerr.
        match goal with |- context [lockLoop os f ?o n (S i) ?s] =>
          destruct (IH o (S i) s) as (k & Hk & Hc & He);
          remember (lockLoop os f o n (S i) s) as r eqn:Er end.
        clear Er. exists (S k). split; [lia|]. split.
        { intros [|j] Hj.
          - rewrite Nat.add_0_r. split; assumption.
          - rewrite Nat.add_succ_r. apply (Hc j). lia. }
        destruct He as [Hlt Hret | Hlt Hret Herr | Hkn];
          cbn [trace lastError cerr]; rewrite <- ?app_assoc; cbn [app].
        -- rewrite ol_seen_shift, last_attempt_shift.
           replace (S i + k)%nat with (i + S k)%nat in * by lia.
           pose proof (loop_acquired os f ol (S n) i (S k) st ltac:(lia) Hret) as G.
           rewrite retries_shift in G. unfold retry at 1 in G. cbn [ol_seen] in G.
           rewrite <- ?app_assoc in G. cbn [app] in G. exact G.
        -- rewrite last_attempt_shift.
           replace (S i + k)%nat with (i + S k)%nat in * by lia.
           pose proof (loop_fatal os f ol (S n) i (S k) st ltac:(lia) Hret Herr) as G.
           rewrite retries_shift in G. unfold retry at 1 in G. cbn [ol_seen] in G.
           rewrite <- ?app_assoc in G. cbn [app] in G. exact G.
        -- rewrite ol_seen_shift.
           pose proof (loop_exhausted os f ol (S n) i (S k) st ltac:(lia)) as G.
           rewrite retries_shift in G. unfold retry at 1 in G. cbn [ol_seen] in G.
           rewrite <- ?app_assoc in G. cbn [app] in G.
           destruct k; exact G.
      * apply Z.eqb_neq in Eerr.
        exists O. split; [lia|]. split; [intros j Hj; lia|].
        pose proof (loop_fatal os f ol (S n) i 0 st ltac:(lia)) as G.
        rewrite Nat.add_0_r in G. unfold last_attempt in G.
        rewrite Nat.add_0_r in G. cbn [retries seq flat_map app ol_seen] in G.
        unfold throw. apply G; assumption.
    + apply Z.eqb_neq in Eret.
      exists O. split; [lia|]. split; [intros j Hj; lia|].
      pose proof (loop_acquired os f ol (S n) i 0 st ltac:(lia)) as G.
      rewrite Nat.add_0_r in G. unfold last_attempt in G.
      cbn [retries seq flat_map app ol_seen] in G. rewrite Nat.add_0_r in G.
      unfold mret. apply G; assumption.
Qed.

End Loop.

(** ** Part 6: the ways through the [try] block *)

Local Open Scope list_scope.

Lemma try_block_ends (os : OS) (argv : list string) :
  try_block_end os argv (try_block os argv start).
Proof.
  unfold try_block. cbv zeta.
  destruct (Z.of_nat (List.length argv) <? 3) eqn:Eargc.
  - apply Z.ltb_lt in Eargc. apply end_usage. lia.
  - apply Z.ltb_ge in Eargc. assert (Hargc : (3 <= List.length argv)%nat) by lia.
    unfold bind at 1. cbn [syscall start trace lastError cerr fst snd app].
    unfold bind at 1, throw_last_error_if.
    destruct (ret (on_CreateFileA os) =? INVALID_HANDLE_VALUE) eqn:Eopen.
    + apply Z.eqb_eq in Eopen. cbn. now apply end_open_failed.
    + apply Z.eqb_neq in Eopen. cbn [mret].
      unfold bind at 1.
      match goal with |- context [lockLoop os ?f ?o attempts 0 ?s] =>
        destruct (lockLoop_end os f attempts o 0 s) as (k & Hk & Hc & He);
        remember (lockLoop os f o attempts 0 s) as r eqn:Er end.
      clear Er. cbn [Nat.add] in He.
      destruct He as [Hlt Hret | Hlt Hret Herr | Hkn]; cbn [fst snd negb].
      * unfold bind at 1. cbn [mret]. now apply end_locked.
      * now apply end_lock_fatal.
      * subst k. unfold bind at 1. cbn [throw].
        now apply end_lock_timeout.
Qed.

(** ** Part 7: the ways through the locked section *)

Section Steps.
Context {A B : Type}.

Lemma bind_syscall {R} (c : call) (r : reply R) (k : Z * R -> M B) (st : state) :
  bind (syscall c r) k st
  = k (ret r, out r)
      {| trace := trace st ++ [Event c (ret r) (err r)];
         lastError := err r;
         cerr := cerr st |}.
Proof. reflexivity. Qed.

Lemma bind_GetLastError (k : DWORD -> M B) (st : state) :
  bind GetLastError k st = k (lastError st) st.
Proof. reflexivity. Qed.

Lemma bind_mret (a : A) (k : A -> M B) (st : state) :
  bind (mret a) k st = k a st.
Proof. reflexivity. Qed.

Lemma bind_throw (e : exn) (k : A -> M B) (st : state) :
  bind (throw e) k st = (Exc e, st).
Proof. reflexivity. Qed.

Lemma bind_throw_last_error (what : string) (k : unit -> M B) (st : state) :
  bind (throw_last_error_if true what) k st
  = (Exc (Win32Error what (lastError st)), st).
Proof. reflexivity. Qed.

Lemma bind_no_throw (what : string) (k : unit -> M B) (st : state) :
  bind (throw_last_error_if false what) k st = k tt st.
Proof. reflexivity. Qed.

Lemma bind_cerr_write (s : string) (k : unit -> M B) (st : state) :
  bind (cerr_write s) k st
  = k tt {| trace := trace st; lastError := lastError st;
            cerr := (cerr st ++ s)%string |}.
Proof. reflexivity. Qed.

Lemma bind_bind {C} (m : M A) (k : A -> M B) (k' : B -> M C) (st : state) :
  bind (bind m k) k' st = bind m (fun a => bind (k a) k') st.
Proof. unfold bind. destruct (m st) as [[a|e] st']; reflexivity. Qed.

End Steps.

(** One step of the straight-line code, from the outside in; a test is
    followed both ways. *)
Ltac step :=
  first
    [ rewrite bind_syscall
    | rewrite bind_GetLastError
    | rewrite bind_mret
    | rewrite bind_cerr_write
    | rewrite bind_throw
    | rewrite bind_throw_last_error
    | rewrite bind_no_throw
    | rewrite bind_bind
    | match goal with
      | |- context [bind (throw_last_error_if ?c ?w) ?k ?st] =>
          destruct c eqn:?
      | |- context [bind (match on_string_alloc ?o with _ => _ end) ?k ?st] =>
          destruct (on_string_alloc o) eqn:?
      | |- context [bind (match on_commandLine_alloc ?o with _ => _ end) ?k ?st] =>
          destruct (on_commandLine_alloc o) eqn:?
      | |- context [bind (if ?c then _ else _) ?k ?st] =>
          destruct c eqn:?
      end ];
  cbv beta zeta; cbn [fst snd trace lastError cerr].

Ltac follow_branches :=
  unfold locked_section; cbv beta zeta; repeat step;
  unfold mret, throw; rewrite <- ?app_assoc; cbn [app].

(** The same for a whole execution: the five ways through the prologue,
    then the branches of the locked section, then the handler.  The
    execution is named first, so that it is followed once however often the
    goal mentions it. *)
Ltac follow_run os argv :=
  let x := fresh "x" in
  let Ex := fresh "Ex" in
  remember (run os argv) as x eqn:Ex; revert Ex;
  unfold run, main, try_catch;
  destruct (try_block_ends os argv)
    as [Hargc | Hargc Hopen | k Hargc Hopen Hk Hbusy Hret Herr
        | Hargc Hopen Hbusy | k Hargc Hopen Hk Hbusy Hret];
  [ | | | | follow_branches ];
  cbv beta zeta iota; cbn [fst snd handler];
  repeat step; unfold mret;
  unfold locked_state;
  cbv beta zeta iota; cbn [fst snd trace lastError cerr];
  rewrite <- ?app_assoc; cbn [app];
  intros ->;
  unfold completes, happens, exit_status, stderr, calls;
  cbn [ended returned final trace lastError cerr].

Lemma int_of_DWORD_status (d : DWORD) :
  is_DWORD d -> int_of_DWORD d mod 2 ^ 32 = d.
Proof.
  unfold is_DWORD, int_of_DWORD. intro H.
  destruct (d <? 2 ^ 31) eqn:E.
  - apply Z.mod_small. lia.
  - apply Z.ltb_ge in E.
    replace (d - 2 ^ 32) with (d + (-1) * 2 ^ 32) by lia.
    rewrite Z.mod_add by lia. apply Z.mod_small. lia.
Qed.


(** *** The events of the prologue *)

Lemma in_retries (os : OS) (f : HANDLE) (ol : OVERLAPPED) (i k : nat) (e : event) :
  In e (retries os f ol i k) ->
  (exists j, (j < k)%nat
             /\ e = Event (LockFileEx f lock_flags 0 1 0 (ol_seen os ol i j))
                          0 ERROR_LOCK_VIOLATION)
  \/ e = Event (Sleep 1000) 0 ERROR_LOCK_VIOLATION.
Proof.
  unfold retries. rewrite in_flat_map. intros (j & Hj & He).
  apply in_seq in Hj. destruct He as [<- | [<- | []]].
  - left. exists j. split; [lia | reflexivity].
  - now right.
Qed.

Lemma in_prologue (os : OS) (argv : list string) (k : nat) (e : event) :
  In e (prologue os argv k) ->
  e = opened os argv
  \/ (exists j, (j < k)%nat
                /\ e = Event (LockFileEx (lock_file os) lock_flags 0 1 0
                                (ol_seen os zeroed_OVERLAPPED 0 j))
                             0 ERROR_LOCK_VIOLATION)
  \/ e = Event (Sleep 1000) 0 ERROR_LOCK_VIOLATION.
Proof.
  intros [<- | H]; [now left | right]. now apply in_retries in H.
Qed.

Lemma prologue_preliminary (os : OS) (argv : list string) (k : nat) (e : event) :
  In e (prologue os argv k) -> preliminary e = true.
Proof.
  intro H. apply in_prologue in H as [-> | [(j & _ & ->) | ->]]; reflexivity.
Qed.

(** A kind of event that does not occur in the prologue can be looked for
    after it. *)
Lemma existsb_after (P : event -> bool) (pre t : list event) :
  (forall e, In e pre -> P e = false) ->
  existsb P (pre ++ t) = existsb P t.
Proof.
  intro H. rewrite existsb_app.
  replace (existsb P pre) with false; [reflexivity|].
  symmetry. induction pre as [|e pre IH]; [reflexivity|].
  cbn [existsb]. rewrite (H e (or_introl eq_refl)). apply IH.
  intros e' He'. apply H. now right.
Qed.

Lemma precedes_after (P Q : event -> bool) (pre t : list event) :
  (forall e, In e pre -> P e = false) ->
  (forall e, In e pre -> Q e = false) ->
  precedes P Q (pre ++ t) = precedes P Q t.
Proof.
  intros HP HQ. induction pre as [|e pre IH]; [reflexivity|].
  cbn [app precedes]. rewrite (HP e (or_introl eq_refl)), (HQ e (or_introl eq_refl)).
  apply IH; intros e' He'; [apply HP | apply HQ]; now right.
Qed.

Ltac prove_later :=
  let r := fresh in let le := fresh in let H := fresh in
  intros [[] r le]; cbn; intro H; rewrite ?H; first [reflexivity | discriminate H].

Lemma later_acquires : later_kind acquires. Proof. prove_later. Qed.
Lemma later_creates_suspended : later_kind creates_suspended. Proof. prove_later. Qed.
Lemma later_is_AssignProcessToJobObject : later_kind is_AssignProcessToJobObject.
Proof. prove_later. Qed.
Lemma later_attaches : later_kind attaches. Proof. prove_later. Qed.
Lemma later_attach_denied : later_kind attach_denied. Proof. prove_later. Qed.
Lemma later_is_ResumeThread : later_kind is_ResumeThread. Proof. prove_later. Qed.
Lemma later_resumes : later_kind resumes. Proof. prove_later. Qed.
Lemma later_sees_exit : later_kind sees_exit. Proof. prove_later. Qed.
Lemma later_reads_exit_code : later_kind reads_exit_code. Proof. prove_later. Qed.
Lemma later_is_UnlockFileEx : later_kind is_UnlockFileEx. Proof. prove_later. Qed.
Lemma later_releases : later_kind releases. Proof. prove_later. Qed.
Lemma later_is_CloseHandle_of (h : HANDLE) : later_kind (is_CloseHandle_of h).
Proof. prove_later. Qed.
Lemma later_closes (h : HANDLE) : later_kind (closes h). Proof. prove_later. Qed.

Create HintDb later discriminated.
#[local] Hint Resolve later_acquires later_creates_suspended
  later_is_AssignProcessToJobObject later_attaches later_attach_denied
  later_is_ResumeThread later_resumes later_sees_exit later_reads_exit_code
  later_is_UnlockFileEx later_releases later_is_CloseHandle_of later_closes : later.

Lemma existsb_prologue (P : event -> bool) os argv k (t : list event) :
  later_kind P ->
  existsb P (prologue os argv k ++ t) = existsb P t.
Proof.
  intro H. apply existsb_after. intros e He. apply H.
  now apply prologue_preliminary in He.
Qed.

Lemma precedes_prologue (P Q : event -> bool) os argv k (t : list event) :
  later_kind P -> later_kind Q ->
  precedes P Q (prologue os argv k ++ t) = precedes P Q t.
Proof.
  intros HP HQ.
  apply precedes_after; intros e He; [apply HP | apply HQ];
    now apply prologue_preliminary in He.
Qed.

Lemma existsb_prologue_only (P : event -> bool) os argv k :
  later_kind P -> existsb P (prologue os argv k) = false.
Proof.
  intro H. rewrite <- (app_nil_r (prologue os argv k)).
  now rewrite existsb_prologue.
Qed.

Lemma calls_to_later (name : string) :
  name <> "CreateFileA"%string -> name <> "LockFileEx"%string ->
  name <> "Sleep"%string ->
  later_kind (calls_to name).
Proof.
  intros H1 H2 H3 [[] r le]; unfold calls_to, preliminary;
    cbn [ev_call ev_ret api]; intro H; try discriminate H;
    apply String.eqb_neq; auto.
Qed.

Lemma existsb_retries (P : event -> bool) os f ol i k :
  (forall o, P (Event (LockFileEx f lock_flags 0 1 0 o) 0 ERROR_LOCK_VIOLATION) = false) ->
  P (Event (Sleep 1000) 0 ERROR_LOCK_VIOLATION) = false ->
  existsb P (retries os f ol i k) = false.
Proof.
  intros H1 H2. apply not_true_is_false. intro H.
  apply existsb_exists in H as (e & He & HP).
  apply in_retries in He as [(j & _ & ->) | ->]; congruence.
Qed.

(** ** Part 8: the message, the exit code and its digits *)

Lemma get_append_right (a b : string) (i : nat) :
  String.get (String.length a + i) (a ++ b) = String.get i b.
Proof. induction a as [|c a IH]; [reflexivity | exact IH]. Qed.

Lemma substring_append_left (a b : string) :
  String.substring 0 (String.length a) (a ++ b) = a.
Proof.
  induction a as [|c a IH]; cbn [String.length String.append String.substring].
  - now destruct b.
  - now rewrite IH.
Qed.

(** A string of two characters is known by its characters. *)
Lemma two_characters (s : string) (c d : ascii) :
  String.length s = 2%nat ->
  String.get 0 s = Some c -> String.get 1 s = Some d ->
  s = String c (String d EmptyString).
Proof.
  destruct s as [|x [|y [|z s]]]; cbn; intros Hl H0 H1; try discriminate Hl.
  now injection H0 as ->; injection H1 as ->.
Qed.

Lemma strip_crlf_line (m : string) :
  strip_crlf (m ++ String Str.CR (String Str.LF EmptyString))%string = m.
Proof.
  unfold strip_crlf. cbv zeta.
  rewrite StrFacts.length_app. cbn [String.length].
  replace (String.length m + 2 - 2)%nat with (String.length m + 0)%nat by lia.
  replace (String.length m + 2 - 1)%nat with (String.length m + 1)%nat by lia.
  rewrite !get_append_right. cbn [String.get].
  replace (1 <? String.length m + 2)%nat with true
    by (symmetry; apply Nat.ltb_lt; lia).
  cbn. rewrite Nat.add_0_r. apply substring_append_left.
Qed.

(** What [strip_crlf] returns is the string itself or the string without
    its last two characters, which then are CR and LF. *)
Lemma strip_crlf_cases (s : string) :
  strip_crlf s = s
  \/ s = (strip_crlf s ++ String Str.CR (String Str.LF EmptyString))%string.
Proof.
  unfold strip_crlf. cbv zeta.
  destruct (1 <? String.length s)%nat eqn:Hlen; [|now left].
  apply Nat.ltb_lt in Hlen.
  destruct (String.get (String.length s - 2) s) as [c|] eqn:Hc; [|now left].
  destruct (String.get (String.length s - 1) s) as [d|] eqn:Hd; [|now left].
  destruct (Ascii.eqb c Str.CR) eqn:Ec; [|now left].
  destruct (Ascii.eqb d Str.LF) eqn:Ed; [|now left].
  apply Ascii.eqb_eq in Ec, Ed. subst c d. right. cbn [andb].
  pose proof (StrFacts.split_at s (String.length s - 2) ltac:(lia)) as Hsplit.
  assert (Hl : String.length (String.substring 0 (String.length s - 2) s)
               = (String.length s - 2)%nat).
  { pose proof (StrFacts.length_substr s (String.length s - 2) ltac:(lia)) as H2.
    apply (f_equal String.length) in Hsplit.
    rewrite StrFacts.length_app in Hsplit. lia. }
  rewrite Hsplit at 1. f_equal.
  apply two_characters.
  - rewrite StrFacts.length_substr; lia.
  - rewrite <- (get_append_right (String.substring 0 (String.length s - 2) s)).
    rewrite Hl, Nat.add_0_r, <- Hsplit. exact Hc.
  - rewrite <- (get_append_right (String.substring 0 (String.length s - 2) s)).
    rewrite Hl, <- Hsplit.
    replace (String.length s - 2 + 1)%nat with (String.length s - 1)%nat by lia.
    exact Hd.
Qed.

(** The message printed for a buffer: the buffer without its CR LF when it
    ends in one, the buffer itself when it does not. *)
Lemma strip_crlf_message (s : string) :
  s = (strip_crlf s ++ String Str.CR (String Str.LF EmptyString))%string
  \/ (strip_crlf s = s /\ ~ ends_in_crlf s).
Proof.
  destruct (strip_crlf_cases s) as [H | H]; [right | now left].
  split; [exact H|]. intros [m Hm].
  rewrite Hm, strip_crlf_line in H.
  apply (f_equal String.length) in H.
  rewrite StrFacts.length_app in H. cbn in H. lia.
Qed.

(** X1.  [strip_crlf] removes one CR LF from the end of a message and
    nothing else: a message followed by CR LF gives the message back (even
    when the message itself ends in CR LF), and a message that does not end
    in CR LF is left as it is. *)
Theorem strip_crlf_removes_one_line_end :
  (forall m : string,
      strip_crlf (m ++ String Str.CR (String Str.LF EmptyString))%string = m) /\
  (forall s : string, ~ ends_in_crlf s -> strip_crlf s = s).
Proof.
  split; [exact strip_crlf_line|].
  intros s Hs. destruct (strip_crlf_cases s) as [H | H]; [exact H|].
  exfalso. apply Hs. now exists (strip_crlf s).
Qed.

(** X2.  What [main] returns for a 32-bit unsigned code is a 32-bit signed
    [int]; it is negative exactly for the codes from [2^31] on; read back as
    an unsigned value it is the code again, so two different codes never
    give the same exit status. *)
Theorem int_of_DWORD_round_trip (d d' : DWORD) :
  is_DWORD d -> is_DWORD d' ->
  INT_MIN <= int_of_DWORD d <= INT_MAX /\
  (int_of_DWORD d < 0 <-> 2 ^ 31 <= d) /\
  int_of_DWORD d mod 2 ^ 32 = d /\
  (int_of_DWORD d = int_of_DWORD d' -> d = d').
Proof.
  unfold is_DWORD, INT_MIN, INT_MAX. intros H H'.
  assert (R : forall x, 0 <= x < 2 ^ 32 -> int_of_DWORD x mod 2 ^ 32 = x)
    by (intros; now apply int_of_DWORD_status).
  split; [|split; [|split]].
  - unfold int_of_DWORD. destruct (d <? 2 ^ 31) eqn:E;
      [apply Z.ltb_lt in E | apply Z.ltb_ge in E]; lia.
  - unfold int_of_DWORD. destruct (d <? 2 ^ 31) eqn:E;
      [apply Z.ltb_lt in E | apply Z.ltb_ge in E]; lia.
  - now apply R.
  - intro E. rewrite <- (R d H), <- (R d' H'). now rewrite E.
Qed.

Lemma int_of_DWORD_round_trip_witness :
  int_of_DWORD 3221225477 mod 2 ^ 32 = 3221225477.
Proof.
  apply (int_of_DWORD_round_trip 3221225477 5); unfold is_DWORD; lia.
Defined.

Lemma uint_read_back (u : Decimal.uint) :
  option_map N.of_uint (NilZero.uint_of_string (NilZero.string_of_uint u))
  = Some (N.of_uint u).
Proof.
  destruct u; try (rewrite NilZero.usu by discriminate; reflexivity).
  reflexivity.
Qed.

Lemma read_decimal_of_decimal (d : DWORD) :
  0 <= d -> read_decimal (decimal d) = Some d.
Proof.
  intro H. unfold read_decimal, decimal.
  pose proof (uint_read_back (N.to_uint (Z.to_N d))) as R.
  destruct (NilZero.uint_of_string _) as [u|]; cbn in *; [|discriminate R].
  injection R as R. rewrite R, DecimalN.Unsigned.of_to. f_equal. lia.
Qed.

(** The digits of a number do not start with a zero, the number zero
    apart. *)
Lemma no_leading_zero (n : N) (rest : string) :
  NilZero.string_of_uint (N.to_uint n) = String "0" rest -> rest = EmptyString.
Proof.
  assert (Hn : Decimal.unorm (N.to_uint n) = N.to_uint n).
  { rewrite <- (DecimalN.Unsigned.of_to n) at 2.
    now rewrite DecimalN.Unsigned.to_of. }
  destruct (N.to_uint n) as [|u|u|u|u|u|u|u|u|u|u] eqn:E;
    cbn [NilZero.string_of_uint NilEmpty.string_of_uint];
    intro H; try discriminate H.
  - now injection H as <-.
  - injection H as <-.
    destruct u as [|v|v|v|v|v|v|v|v|v|v] eqn:Eu; [reflexivity|..];
      exfalso; rewrite DecimalFacts.unorm_D0 in Hn;
      match type of Hn with
      | Decimal.unorm ?v = _ =>
          pose proof (DecimalFacts.nb_digits_unorm v ltac:(discriminate)) as Hd;
          rewrite Hn in Hd; cbn [Decimal.nb_digits] in Hd; lia
      end.
Qed.

Lemma decimal_canonical (d : DWORD) (rest : string) :
  decimal d = String "0" rest -> rest = EmptyString.
Proof. apply no_leading_zero. Qed.

(** X3.  The digits printed after [code] in the error line determine the
    code: reading them back as a decimal number gives the code, and they
    are the only digits without a leading zero that do. *)
Theorem decimal_read_back (d : DWORD) :
  0 <= d ->
  read_decimal (decimal d) = Some d
  /\ (forall rest, decimal d = String "0" rest -> rest = EmptyString)
  /\ (forall digits,
        read_decimal digits = Some d ->
        (forall rest, digits = String "0" rest -> rest = EmptyString) ->
        digits = decimal d).
Proof.
  intro H. split; [now apply read_decimal_of_decimal|].
  split; [apply decimal_canonical|].
  intros digits Hr Hz. unfold read_decimal in Hr.
  destruct (NilZero.uint_of_string digits) as [u|] eqn:Eu; [|discriminate Hr].
  cbn in Hr. injection Hr as Hr.
  pose proof (NilZero.sus _ _ Eu) as Hs.
  unfold decimal. rewrite <- Hr, N2Z.id, DecimalN.Unsigned.to_of.
  rewrite <- Hs.
  destruct u as [|v|v|v|v|v|v|v|v|v|v]; try reflexivity.
  cbn [NilZero.string_of_uint NilEmpty.string_of_uint] in Hs.
  symmetry in Hs. apply Hz in Hs.
  destruct v; try discriminate Hs. reflexivity.
Qed.

Lemma decimal_read_back_witness : read_decimal (decimal 33) = Some 33.
Proof. apply (decimal_read_back 33). lia. Defined.

(** ** Part 9: the exit status after a failed configuration of the job object *)

(** C5.  The exit status after a failure of the operating system is meant
    to be the error code of the failed call, and so it is where the source
    reads [GetLastError] right after the call.  After a failed
    [SetInformationJobObject] the source closes the job object's handle
    first (line 161) and reads [GetLastError] afterwards (line 162).  Here
    [SetInformationJobObject] fails with code 87 and [CloseHandle] succeeds
    and leaves the last-error value at 0: the error is reported with code
    0, under the text of code 0, and the exit status is 0, the status of a
    success. *)
Theorem error_code_read_after_CloseHandle :
  In (Event (SetInformationJobObject 300 JOB_OBJECT_LIMIT_KILL_ON_JOB_CLOSE) 0 87)
     (calls (run job_not_configurable example_argv))
  /\ ended (run job_not_configurable example_argv)
     = Exc (Win32Error "SetInformationJobObject" 0)
  /\ exit_status (run job_not_configurable example_argv) = 0
  /\ stderr (run job_not_configurable example_argv)
     = ("error: SetInformationJobObject failed: "
        ++ "The operation completed successfully. (code 0)"
        ++ String Str.LF EmptyString)%string
  /\ ~ status_is_the_error_code job_not_configurable example_argv.
Proof.
  split; [vm_compute; tauto|]. split; [reflexivity|]. split; [reflexivity|].
  split; [reflexivity|].
  unfold status_is_the_error_code. intro H.
  specialize (H (Event (SetInformationJobObject 300 JOB_OBJECT_LIMIT_KILL_ON_JOB_CLOSE)
                       0 87)
                "SetInformationJobObject"%string 0).
  discriminate H.
  - reflexivity.
  - vm_compute. tauto.
  - reflexivity.
  - reflexivity.
  - intro C. discriminate C.
Qed.

(** ** Part 10: cleanup *)

(** Evaluates the kinds of the events of an explicit trace, using what the
    branch taken says about the replies. *)
Ltac evaluate :=
  rewrite ?existsb_prologue, ?precedes_prologue, ?existsb_prologue_only
    by auto with later;
  unfold deciding, last_attempt, opened, reported;
  unfold acquires, creates_suspended, attaches, attach_denied, resumes,
    sees_exit, reads_exit_code, releases, closes, contended,
    is_LockFileEx, is_Sleep, is_UnlockFileEx, is_CloseHandle_of,
    is_AssignProcessToJobObject, is_ResumeThread;
  unfold lock_file in *;
  cbn in *;
  unfold FALSE, TRUE, NULL, WAIT_FAILED, DWORD_minus_1, INVALID_HANDLE_VALUE in *;
  cbn in *;
  repeat match goal with
         | H : (_ =? _) = _ |- _ => rewrite H
         | H : _ = _ :> Z |- _ => rewrite H
         | H : ?a <> ?b |- context [?a =? ?b] =>
             rewrite (proj2 (Z.eqb_neq a b) H)
         end;
  cbn.



(** Closes the goals that [evaluate] leaves: equations between results,
    and truth values. *)
Ltac settle :=
  intros;
  repeat match goal with
         | H : Exc _ = Exc _ |- _ => injection H as <-
         | H : Val _ = Val _ |- _ => injection H as <-
         | H : Val _ = Exc _ |- _ => discriminate H
         | H : Exc _ = Val _ |- _ => discriminate H
         | H : false = true |- _ => discriminate H
         | H : true = false |- _ => discriminate H
         end;
  rewrite ?Z.eqb_refl;
  cbn in *;
  try solve [intuition (try discriminate; try congruence; try lia)].

(** C1, as the code has it.  In an execution that acquired the lock (and in
    which the job object's handle is not the lock file's), [UnlockFileEx]
    is called exactly when the child's exit code has been read, that is when
    every step up to there succeeded, and [CloseHandle] is called on the
    lock file exactly when [UnlockFileEx] succeeded.  So an execution that
    completes has read the exit code, then released the lock, then closed
    the file; and one that ends with an error raised before the cleanup (in
    executable resolution, process creation, job creation, configuration or
    attachment, resume, wait or exit-code retrieval) returns without having
    called [UnlockFileEx] or [CloseHandle] on the lock file. *)
Theorem cleanup_only_after_exit_code (os : OS) (argv : list string) :
  happens acquires (run os argv) ->
  ret (on_CreateJobObject os) <> lock_file os ->
  (happens is_UnlockFileEx (run os argv) <-> happens reads_exit_code (run os argv)) /\
  (happens (is_CloseHandle_of (lock_file os)) (run os argv)
   <-> happens releases (run os argv)) /\
  (forall v, ended (run os argv) = Val v ->
     precedes reads_exit_code releases (calls (run os argv)) = true
     /\ precedes releases (closes (lock_file os)) (calls (run os argv)) = true) /\
  (forall e, ended (run os argv) = Exc e -> raised_by_cleanup e = false ->
     ~ happens is_UnlockFileEx (run os argv)
     /\ ~ happens (is_CloseHandle_of (lock_file os)) (run os argv)).
Proof.
  follow_run os argv; evaluate; intros Hacq Hjob;
    try discriminate Hacq;
    rewrite ?(proj2 (Z.eqb_neq _ _) Hjob), ?Z.eqb_refl; cbn;
    (split; [|split; [|split]]); settle.
Qed.

(** C1 at one execution: the lock is free, the child completes with exit
    code 0. *)
Lemma cleanup_only_after_exit_code_witness :
  happens is_UnlockFileEx (run (friendly tool 0) example_argv)
  <-> happens reads_exit_code (run (friendly tool 0) example_argv).
Proof.
  apply (cleanup_only_after_exit_code (friendly tool 0) example_argv).
  - reflexivity.
  - vm_compute. discriminate.
Defined.

(** C1 as worded fails: when the child cannot be started the lock has been
    acquired, and [main] returns without unlocking or closing the file. *)
Lemma cleanup_on_every_path_fails :
  ~ cleanup_on_every_path cannot_start example_argv.
Proof.
  unfold cleanup_on_every_path, happens. vm_compute.
  intro H. destruct (H eq_refl) as [H1 _]. discriminate H1.
Qed.

(** ** Part 11: the order of the steps *)

(** C2, as the code has it.  In every execution that runs through to
    [return exitCode]: the lock is acquired strictly before the child is
    created (suspended); the child is created strictly before
    [AssignProcessToJobObject] is called, and that call is made strictly
    before the child is resumed; the call either made the child a member of
    the job object or was refused with [ERROR_ACCESS_DENIED], in which case
    the child is resumed without being a member; the child is resumed
    strictly before it is seen to exit, its exit code is read after that, and
    the lock is released strictly after the exit code has been read. *)
Theorem order_of_a_complete_execution (os : OS) (argv : list string) :
  completes argv (run os argv) ->
  precedes acquires creates_suspended (calls (run os argv)) = true /\
  precedes creates_suspended is_AssignProcessToJobObject (calls (run os argv)) = true /\
  precedes is_AssignProcessToJobObject resumes (calls (run os argv)) = true /\
  (precedes attaches resumes (calls (run os argv)) = true
   \/ precedes attach_denied resumes (calls (run os argv)) = true) /\
  precedes resumes sees_exit (calls (run os argv)) = true /\
  precedes sees_exit reads_exit_code (calls (run os argv)) = true /\
  precedes reads_exit_code releases (calls (run os argv)) = true.
Proof.
  follow_run os argv; intros [Hlen [v Hv]]; try discriminate Hv; try lia.
  evaluate.
  match goal with
  | H : (ret (on_AssignProcessToJobObject os) =? 0) && negb _ = false |- _ =>
      destruct (ret (on_AssignProcessToJobObject os) =? 0); cbn in *;
      [apply negb_false_iff in H; rewrite H; cbn; tauto | tauto]
  end.
Qed.

(** C2 at the execution in which nothing fails. *)
Lemma order_of_a_complete_execution_witness :
  precedes reads_exit_code releases (calls (run (friendly tool 0) example_argv)) = true.
Proof.
  apply (order_of_a_complete_execution (friendly tool 0) example_argv).
  split; [vm_compute; lia | exists 0; reflexivity].
Defined.

(** C2 as worded fails: when the attachment is refused with
    [ERROR_ACCESS_DENIED] the execution completes, and the child has been
    resumed without ever being attached to the job object. *)
Lemma always_ordered_fails : ~ always_ordered inside_a_job example_argv.
Proof.
  unfold always_ordered, ordered. intro H.
  assert (C : completes example_argv (run inside_a_job example_argv))
    by (split; [vm_compute; lia | exists 0; reflexivity]).
  destruct (H C) as (_ & _ & H3 & _). vm_compute in H3. discriminate H3.
Qed.

(** ** Part 12: the retry protocol *)

Lemma count_app (P : event -> bool) (a b : list event) :
  count P (a ++ b) = (count P a + count P b)%nat.
Proof. unfold count. now rewrite filter_app, length_app. Qed.

Lemma count_retries (os : OS) (f : HANDLE) (ol : OVERLAPPED) (i k : nat) :
  count is_LockFileEx (retries os f ol i k) = k
  /\ count is_Sleep (retries os f ol i k) = k.
Proof.
  unfold retries. generalize 0%nat as s.
  induction k as [|k IH]; intro s; [split; reflexivity|].
  cbn [seq flat_map]. rewrite !count_app.
  destruct (IH (S s)) as [-> ->]. split; reflexivity.
Qed.

Lemma length_retries (os : OS) (f : HANDLE) (ol : OVERLAPPED) (i k : nat) :
  List.length (retries os f ol i k) = (2 * k)%nat.
Proof.
  unfold retries. rewrite flat_map_constant_length with (c := 2%nat).
  - rewrite length_seq. lia.
  - reflexivity.
Qed.

(** Position [2 j] of the retries holds attempt [j], position [2 j + 1] the
    sleep after it. *)
Lemma nth_error_retries (os : OS) (f : HANDLE) (ol : OVERLAPPED) (i k j : nat) :
  (j < k)%nat ->
  nth_error (retries os f ol i k) (2 * j)
  = Some (Event (LockFileEx f lock_flags 0 1 0 (ol_seen os ol i j))
                0 ERROR_LOCK_VIOLATION)
  /\ nth_error (retries os f ol i k) (2 * j + 1)
     = Some (Event (Sleep 1000) 0 ERROR_LOCK_VIOLATION).
Proof.
  unfold retries.
  assert (G : forall s, (j < k)%nat ->
            nth_error (flat_map (retry os f ol i) (seq s k)) (2 * j)
            = nth_error (retry os f ol i (s + j)) 0
            /\ nth_error (flat_map (retry os f ol i) (seq s k)) (2 * j + 1)
               = nth_error (retry os f ol i (s + j)) 1).
  { revert j. induction k as [|k IH]; intros j s Hj; [lia|].
    cbn [seq flat_map]. destruct j as [|j].
    - rewrite Nat.add_0_r. split; reflexivity.
    - replace (2 * S j)%nat with (S (S (2 * j))) by lia.
      replace (s + S j)%nat with (S s + j)%nat by lia.
      cbn [retry app nth_error Nat.add]. apply IH. lia. }
  intro Hj. destruct (G 0%nat Hj) as [-> ->]. split; reflexivity.
Qed.

(** C3.  The loop makes its attempts with the flags for an exclusive lock
    that fails at once instead of blocking.  It ends in one of three ways,
    after some number [k] of attempts that all met contention and were each
    followed by a sleep of 1000 ms: attempt [k] succeeds and the lock is
    held; or attempt [k] fails with another error than contention, which is
    thrown as it is, this attempt being the last call of the loop; or [k] is
    300 and the loop gives up.  In all cases it has called [LockFileEx] at
    most 300 times. *)
Theorem lockLoop_protocol (os : OS) (f : HANDLE) (ol : OVERLAPPED) (st : state) :
  attempts = 300%nat /\
  lock_flags = Z.lor LOCKFILE_EXCLUSIVE_LOCK LOCKFILE_FAIL_IMMEDIATELY /\
  exists k r st' t,
    lockLoop os f ol attempts 0 st = (r, st') /\
    trace st' = trace st ++ t /\
    (count is_LockFileEx t <= 300)%nat /\
    (forall j, (j < k)%nat ->
       contention os j
       /\ nth_error t (2 * j)
          = Some (Event (LockFileEx f lock_flags 0 1 0 (ol_seen os ol 0 j))
                        0 ERROR_LOCK_VIOLATION)
       /\ nth_error t (2 * j + 1)
          = Some (Event (Sleep 1000) 0 ERROR_LOCK_VIOLATION)) /\
    ( ((k < 300)%nat /\
       ret (on_LockFileEx os k) <> 0 /\
       r = Val (true, ol_seen os ol 0 (S k)) /\
       t = retries os f ol 0 k ++ [last_attempt os f ol 0 k])
      \/
      ((k < 300)%nat /\
       ret (on_LockFileEx os k) = 0 /\
       err (on_LockFileEx os k) <> ERROR_LOCK_VIOLATION /\
       r = Exc (Win32Error "LockFileEx" (err (on_LockFileEx os k))) /\
       t = retries os f ol 0 k ++ [last_attempt os f ol 0 k])
      \/
      (k = 300%nat /\
       r = Val (false, ol_seen os ol 0 k) /\
       t = retries os f ol 0 k) ).
Proof.
  split; [reflexivity|]. split; [reflexivity|].
  destruct (lockLoop_end os f attempts ol 0 st) as (k & Hk & Hc & He).
  cbn [Nat.add] in He.
  assert (Hpos : forall t' j, (j < k)%nat ->
            contention os j
            /\ nth_error (retries os f ol 0 k ++ t') (2 * j)
               = Some (Event (LockFileEx f lock_flags 0 1 0 (ol_seen os ol 0 j))
                             0 ERROR_LOCK_VIOLATION)
            /\ nth_error (retries os f ol 0 k ++ t') (2 * j + 1)
               = Some (Event (Sleep 1000) 0 ERROR_LOCK_VIOLATION)).
  { intros t' j Hj. split; [now apply (Hc j)|].
    destruct (nth_error_retries os f ol 0 k j Hj) as [H1 H2].
    pose proof (length_retries os f ol 0 k) as Hlen.
    rewrite !nth_error_app1 by lia. now split. }
  destruct (count_retries os f ol 0 k) as [Hcount _].
  remember (lockLoop os f ol attempts 0 st) as b eqn:Eb. clear Eb.
  destruct He as [Hlt Hret | Hlt Hret Herr | Hkn].
  - exists k. eexists. eexists. exists (retries os f ol 0 k ++ [last_attempt os f ol 0 k]).
    split; [reflexivity|]. split; [reflexivity|].
    split; [rewrite count_app, Hcount; unfold attempts in Hlt; cbn; lia|].
    split; [apply Hpos|]. left. unfold attempts in Hlt. tauto.
  - exists k. eexists. eexists. exists (retries os f ol 0 k ++ [last_attempt os f ol 0 k]).
    split; [reflexivity|]. split; [reflexivity|].
    split; [rewrite count_app, Hcount; unfold attempts in Hlt; cbn; lia|].
    split; [apply Hpos|]. right. left. unfold attempts in Hlt. tauto.
  - exists k. eexists. eexists. exists (retries os f ol 0 k).
    split; [reflexivity|]. split; [reflexivity|].
    split; [rewrite Hcount; unfold attempts in Hkn; lia|].
    split; [intros j Hj; rewrite <- (app_nil_r (retries os f ol 0 k)); now apply Hpos|].
    right. right. unfold attempts in Hkn. tauto.
Qed.

(** The trace of an execution that gives up after [k] contended attempts:
    what it holds and where. *)
Lemma timeout_trace (os : OS) (argv : list string) (k : nat) (r : event) :
  is_LockFileEx r = false -> is_Sleep r = false ->
  count is_LockFileEx (prologue os argv k ++ [r]) = k /\
  count is_Sleep (prologue os argv k ++ [r]) = k /\
  List.length (prologue os argv k ++ [r]) = (2 + 2 * k)%nat /\
  (forall j, (j < k)%nat ->
     nth_error (prologue os argv k ++ [r]) (1 + 2 * j)
     = Some (Event (LockFileEx (lock_file os) lock_flags 0 1 0
                      (ol_seen os zeroed_OVERLAPPED 0 j))
                   0 ERROR_LOCK_VIOLATION)
     /\ nth_error (prologue os argv k ++ [r]) (2 + 2 * j)
        = Some (Event (Sleep 1000) 0 ERROR_LOCK_VIOLATION)) /\
  nth_error (prologue os argv k ++ [r]) (1 + 2 * k) = Some r.
Proof.
  intros Hr1 Hr2.
  pose proof (length_retries os (lock_file os) zeroed_OVERLAPPED 0 k) as Hsize.
  destruct (count_retries os (lock_file os) zeroed_OVERLAPPED 0 k) as [Hc1 Hc2].
  unfold prologue. rewrite <- app_comm_cons.
  repeat split.
  - unfold count in *. cbn [filter is_LockFileEx opened ev_call].
    rewrite filter_app, length_app, Hc1. cbn [filter]. rewrite Hr1. cbn. lia.
  - unfold count in *. cbn [filter is_Sleep opened ev_call].
    rewrite filter_app, length_app, Hc2. cbn [filter]. rewrite Hr2. cbn. lia.
  - cbn [List.length]. rewrite length_app, Hsize. cbn [List.length]. lia.
  - replace (1 + 2 * j)%nat with (S (2 * j)) by lia. cbn [nth_error].
    rewrite nth_error_app1 by lia.
    now apply nth_error_retries.
  - replace (2 + 2 * j)%nat with (S (2 * j + 1)) by lia. cbn [nth_error].
    rewrite nth_error_app1 by lia.
    now apply nth_error_retries.
  - replace (1 + 2 * k)%nat
      with (S (List.length (retries os (lock_file os) zeroed_OVERLAPPED 0 k))) by lia.
    cbn [nth_error]. rewrite nth_error_app2 by lia.
    now rewrite Nat.sub_diag.
Qed.

(** C9.  When the lock file can be opened and all 300 attempts meet
    contention, the execution makes exactly 300 attempts and sleeps exactly
    300 times for 1000 ms: attempt [j] is the call at position [1 + 2 j] and
    the sleep that follows it the call at position [2 + 2 j], the last
    attempt included.  Only then, as the last call of all, is the error
    reported; it is the [LockFileEx] error with the contention code. *)
Theorem timeout_after_300_sleeps (os : OS) (argv : list string) :
  (3 <= List.length argv)%nat ->
  lock_file os <> INVALID_HANDLE_VALUE ->
  (forall j, (j < attempts)%nat -> contention os j) ->
  attempts = 300%nat /\
  ended (run os argv) = Exc (Win32Error "LockFileEx" ERROR_LOCK_VIOLATION) /\
  count is_LockFileEx (calls (run os argv)) = attempts /\
  count is_Sleep (calls (run os argv)) = attempts /\
  List.length (calls (run os argv)) = (2 + 2 * attempts)%nat /\
  (forall j, (j < attempts)%nat ->
     nth_error (calls (run os argv)) (1 + 2 * j)
     = Some (Event (LockFileEx (lock_file os) lock_flags 0 1 0
                      (ol_seen os zeroed_OVERLAPPED 0 j))
                   0 ERROR_LOCK_VIOLATION)
     /\ nth_error (calls (run os argv)) (2 + 2 * j)
        = Some (Event (Sleep 1000) 0 ERROR_LOCK_VIOLATION)) /\
  nth_error (calls (run os argv)) (1 + 2 * attempts)
  = Some (reported os ERROR_LOCK_VIOLATION).
Proof.
  follow_run os argv; intros Hlen Hfile Hall;
    try lia; try contradiction;
    try (destruct (Hall k Hk) as [H1 H2];
         first [destruct (Hret H1) | destruct (Herr H2)]).
  split; [reflexivity|]. split; [reflexivity|].
  fold (reported os ERROR_LOCK_VIOLATION).
  apply (timeout_trace os argv attempts); reflexivity.
Qed.

(** ** Part 13: the timeout as an error *)

(** C4.  When the lock file can be opened, the [try] block ends with the
    error record of operation [LockFileEx] and code [ERROR_LOCK_VIOLATION]
    exactly when all 300 attempts met contention: no other failure, of
    [LockFileEx] or of another call, produces this record.  The program then
    exits with status [ERROR_LOCK_VIOLATION] (33) and prints the line of
    [LockFileEx] with code 33. *)
Theorem lock_timeout_distinguished (os : OS) (argv : list string) :
  (3 <= List.length argv)%nat ->
  lock_file os <> INVALID_HANDLE_VALUE ->
  ((forall j, (j < attempts)%nat -> contention os j)
   <-> ended (run os argv) = Exc (Win32Error "LockFileEx" ERROR_LOCK_VIOLATION)) /\
  (ended (run os argv) = Exc (Win32Error "LockFileEx" ERROR_LOCK_VIOLATION) ->
   exit_status (run os argv) = ERROR_LOCK_VIOLATION
   /\ stderr (run os argv)
      = (error_line "LockFileEx" (os_message os ERROR_LOCK_VIOLATION)
           ERROR_LOCK_VIOLATION ++ endl)%string).
Proof.
  follow_run os argv; intros Hlen Hfile; try lia; try contradiction;
    (split; [split; [intro Hall | intro Hend] | intro Hend]);
    try discriminate Hend;
    try (destruct (Hall k Hk) as [H1 H2];
         first [destruct (Hret H1) | destruct (Herr H2)]);
    try (injection Hend as Hcode; destruct (Herr Hcode)).
  - reflexivity.
  - exact Hbusy.
  - split; reflexivity.
Qed.

(** C4 where the file stays locked by someone else. *)
Lemma lock_timeout_distinguished_witness :
  exit_status (run always_busy example_argv) = 33.
Proof.
  apply (lock_timeout_distinguished always_busy example_argv).
  - vm_compute. lia.
  - vm_compute. discriminate.
  - apply (lock_timeout_distinguished always_busy example_argv).
    + vm_compute. lia.
    + vm_compute. discriminate.
    + intros j _. split; reflexivity.
Defined.

(** C9 where the file stays locked by someone else. *)
Lemma timeout_after_300_sleeps_witness :
  count is_Sleep (calls (run always_busy example_argv)) = 300%nat.
Proof.
  apply (timeout_after_300_sleeps always_busy example_argv).
  - vm_compute. lia.
  - vm_compute. discriminate.
  - intros j _. split; reflexivity.
Defined.

(** ** Part 14: the locked range *)

Lemma ol_seen_offsets (os : OS) (i j : nat) :
  Offset (ol_seen os zeroed_OVERLAPPED i j) = 0
  /\ OffsetHigh (ol_seen os zeroed_OVERLAPPED i j) = 0.
Proof. destruct j; split; reflexivity. Qed.

(** Splits the membership of an event in a trace into the events of the
    prologue and the calls that follow. *)
Ltac which_event Hin :=
  first [ apply in_app_or in Hin; destruct Hin as [Hin | Hin];
          [ apply in_prologue in Hin as [-> | [(?j & ?Hj & ->) | ->]] | ]
        | idtac ];
  try (cbn [In] in Hin;
       repeat match type of Hin with
              | _ \/ _ => destruct Hin as [<- | Hin]
              | False => destruct Hin
              end).

(** C10.  Every [LockFileEx] and every [UnlockFileEx] call of an execution
    names the same byte range: the file opened at the start, offset 0,
    length 1.  So the range that [UnlockFileEx] releases is the one that the
    successful [LockFileEx] locked. *)
Theorem same_byte_range (os : OS) (argv : list string)
    (e : event) (range : HANDLE * Z * Z) :
  In e (calls (run os argv)) ->
  byte_range (ev_call e) = Some range ->
  range = (lock_file os, 0, 1).
Proof.
  follow_run os argv; intros Hin Hrange; which_event Hin;
    unfold opened, deciding, last_attempt in *;
    cbn [byte_range ev_call] in Hrange; try discriminate Hrange;
    injection Hrange as <-;
    repeat match goal with
           | |- context [Offset (ol_seen ?o zeroed_OVERLAPPED ?i ?j)] =>
               rewrite (proj1 (ol_seen_offsets o i j))
           | |- context [OffsetHigh (ol_seen ?o zeroed_OVERLAPPED ?i ?j)] =>
               rewrite (proj2 (ol_seen_offsets o i j))
           end;
    reflexivity.
Qed.

(** C10 at the execution in which nothing fails: the range of the unlock
    call. *)
Lemma same_byte_range_witness :
  (100, 0, 1) = (lock_file (friendly tool 0), 0, 1).
Proof.
  apply (same_byte_range (friendly tool 0) example_argv
           (Event (UnlockFileEx 100 0 1 0 zeroed_OVERLAPPED) 1 0)).
  - vm_compute. tauto.
  - reflexivity.
Defined.

(** ** Part 15: which failures are tolerated *)

Lemma sleeps_in_prologue (os : OS) (argv : list string) (k : nat) (t : list event) :
  (0 < k)%nat -> existsb is_Sleep (prologue os argv k ++ t) = true.
Proof.
  intro Hk. rewrite existsb_app. apply orb_true_iff. left.
  apply existsb_exists. exists (Event (Sleep 1000) 0 ERROR_LOCK_VIOLATION).
  split; [|reflexivity]. right.
  destruct (nth_error_retries os (lock_file os) zeroed_OVERLAPPED 0 k 0 Hk) as [_ H].
  now apply nth_error_In in H.
Qed.

(** Turns what is known about the tests on the replies into equations and
    inequations, then decides the tests the goal still mentions. *)
Ltac decide_tests :=
  unfold FALSE, TRUE, NULL, WAIT_FAILED, DWORD_minus_1, INVALID_HANDLE_VALUE,
    ERROR_ACCESS_DENIED, ERROR_LOCK_VIOLATION in *;
  repeat match goal with
         | H : (_ =? _) = true |- _ => apply Z.eqb_eq in H
         | H : (_ =? _) = false |- _ => apply Z.eqb_neq in H
         | H : (_ && _) = false |- _ => apply andb_false_iff in H; destruct H as [H | H]
         | H : (_ && _) = true |- _ => apply andb_true_iff in H; destruct H as [? H]
         | H : negb _ = false |- _ => apply negb_false_iff in H
         | H : negb _ = true |- _ => apply negb_true_iff in H
         end;
  repeat match goal with
         | |- context [?a =? ?b] => destruct (Z.eqb_spec a b)
         end;
  cbn; try discriminate; try lia; try congruence.

(** C8, as the code has it.  Take any call of an execution that failed.
    If it is the attachment to the job object and the error is
    [ERROR_ACCESS_DENIED], the execution goes on and the child is resumed.
    If it is a [LockFileEx] attempt and the error is
    [ERROR_LOCK_VIOLATION], the program sleeps (and retries, or gives up
    after the last attempt).  Three calls are never checked.  After a
    failed [GetStdHandle] the execution goes on and the child is created.
    A failed [CloseHandle] of the job object changes nothing in the
    course of the execution, which is ending with the error of
    [SetInformationJobObject]; and a failed [FormatMessageA] changes
    nothing in it either: [main] is returning the code of the error it
    reports.  In every other case, an [ERROR_ACCESS_DENIED] from another
    call included, the call is one the program checks and the [try] block
    ends with the error of that call; its code is the call's error code,
    except for [SetInformationJobObject]. *)
Theorem tolerated_failures (os : OS) (argv : list string) (e : event) :
  In e (calls (run os argv)) ->
  failed e = true ->
  (attach_denied e = true /\ happens is_ResumeThread (run os argv))
  \/ (contended e = true /\ happens is_Sleep (run os argv))
  \/ (calls_to "GetStdHandle" e = true
      /\ happens (calls_to "CreateProcessA") (run os argv))
  \/ (ev_call e = CloseHandle (job os)
      /\ exists code,
           ended (run os argv) = Exc (Win32Error "SetInformationJobObject" code))
  \/ (calls_to "FormatMessageA" e = true
      /\ exists what code,
           ended (run os argv) = Exc (Win32Error what code)
           /\ returned (run os argv) = int_of_DWORD code)
  \/ (attach_denied e = false /\ contended e = false /\
      exists name code,
        checked_as (lock_file os) e = Some name
        /\ ended (run os argv) = Exc (Win32Error name code)
        /\ (name <> "SetInformationJobObject"%string -> code = ev_err e)).
Proof.
  assert (L : later_kind (calls_to "CreateProcessA"))
    by (apply calls_to_later; discriminate).
  follow_run os argv; intros Hin Hfailed; which_event Hin;
    unfold opened, deciding, last_attempt, reported, lock_file, job in *;
    unfold failed in Hfailed; cbn [ev_call ev_ret ev_err Nat.add] in *;
    try discriminate Hfailed;
    rewrite ?(existsb_prologue (calls_to "CreateProcessA")) by exact L;
    rewrite ?(existsb_prologue is_ResumeThread) by auto with later;
    unfold attach_denied, contended, calls_to, checked_as,
      is_AssignProcessToJobObject, is_LockFileEx;
    cbn [ev_call ev_ret ev_err andb Nat.add api String.eqb Ascii.eqb Bool.eqb];
    rewrite ?Z.eqb_refl;
    first
      [ solve [exfalso; decide_tests]
      | solve [right; left; split; [reflexivity | apply sleeps_in_prologue; lia]]
      | solve [do 2 right; left; split; [reflexivity | reflexivity]]
      | solve [do 3 right; left; split; [reflexivity | eexists; reflexivity]]
      | solve [do 4 right; left; split;
               [reflexivity | do 2 eexists; split; reflexivity]]
      | solve [do 5 right; split; [reflexivity|]; split; [decide_tests|];
               do 2 eexists; split; [reflexivity|];
               split; [reflexivity | intros; congruence]]
      | solve [do 5 right; split; [decide_tests|]; split; [reflexivity|];
               do 2 eexists; split; [reflexivity|];
               split; [reflexivity | intros; congruence]]
      | solve [left; split; [decide_tests | cbn; decide_tests]]
      ].
Qed.

(** C8 where the attachment is refused: the child is resumed all the
    same. *)
Lemma tolerated_failures_witness :
  happens is_ResumeThread (run inside_a_job example_argv).
Proof.
  destruct (tolerated_failures inside_a_job example_argv
              (Event (AssignProcessToJobObject 300 200) 0 ERROR_ACCESS_DENIED))
    as [[_ H] | [[H _] | [[H _] | [[H _] | [[H _] | [H _]]]]]].
  - vm_compute. tauto.
  - reflexivity.
  - exact H.
  - discriminate H.
  - discriminate H.
  - discriminate H.
  - discriminate H.
  - discriminate H.
Defined.

(** C8 as worded fails, lock contention left aside: a [GetStdHandle] that
    returns [INVALID_HANDLE_VALUE] has failed, it is no denied attachment
    and no contended attempt, and the execution still runs through and
    returns the child's exit code. *)
Lemma only_attach_denial_tolerated_fails :
  ~ only_attach_denial_tolerated no_standard_handles example_argv.
Proof.
  unfold only_attach_denial_tolerated. intro H.
  destruct (H (Event (GetStdHandle STD_ERROR_HANDLE) INVALID_HANDLE_VALUE 6))
    as (what & code & Hend).
  - vm_compute. tauto.
  - reflexivity.
  - reflexivity.
  - reflexivity.
  - vm_compute in Hend. discriminate Hend.
Qed.

(** ** Part 16: the command line *)

(** C6.  [quoteArgument] wraps the argument in double quotes, with the
    argument itself copied verbatim in between, exactly when the argument
    contains whitespace (a space or a tab) and returns it unchanged
    otherwise; the command line is the quoted executable path followed by the
    quoted arguments [argv[3]], [argv[4]], ..., in that order, joined by
    single spaces; and the command line that an execution passes to
    [CreateProcessA] is the one built from the path that
    [PathSearchAndQualifyA] returned. *)
Theorem quoteArgument_and_command_line :
  (forall a : string,
      (Str.contains_whitespace a ->
       Str.quoteArgument a
       = (String Str.DQUOTE EmptyString ++ a ++ String Str.DQUOTE EmptyString)%string) /\
      (~ Str.contains_whitespace a -> Str.quoteArgument a = a)) /\
  (forall (executable : string) (argv : list string),
      Str.buildCommandLine executable argv
      = Str.space_joined executable (skipn 3 argv)) /\
  (forall (os : OS) (argv : list string) (e : event) app cmd inherit flags si,
      In e (calls (run os argv)) ->
      ev_call e = CreateProcessA app cmd inherit flags si ->
      cmd = Str.c_str (Str.space_joined
                         (Str.c_str (out (on_PathSearchAndQualifyA os)))
                         (skipn 3 argv))).
Proof.
  split; [exact StrFacts.quoteArgument_cases|].
  split; [exact StrFacts.buildCommandLine_joined|].
  intros os argv e app cmd inherit flags si.
  follow_run os argv; intros Hin Hcall; which_event Hin;
    unfold opened, deciding, last_attempt in *;
    cbn [ev_call] in Hcall; try discriminate Hcall.
  all: injection Hcall as _ <- _ _ _; now rewrite StrFacts.buildCommandLine_joined.
Qed.

(** ** Part 17: the model at work *)

Example enforceExeExtension_examples :
  Str.enforceExeExtension "tool" = "tool.exe"%string
  /\ Str.enforceExeExtension "tool.exe" = "tool.exe"%string
  /\ Str.enforceExeExtension "TOOL.ExE" = "TOOL.ExE"%string
  /\ Str.enforceExeExtension "exe" = "exe.exe"%string
  /\ Str.enforceExeExtension "tool.exe.bak" = "tool.exe.bak.exe"%string.
Proof. repeat split. Qed.

Example quoteArgument_examples :
  Str.quoteArgument "abc" = "abc"%string
  /\ Str.quoteArgument "b c" = String Str.DQUOTE ("b c" ++ String Str.DQUOTE "")%string
  /\ Str.quoteArgument (String Str.DQUOTE "x y")
     = String Str.DQUOTE (String Str.DQUOTE ("x y" ++ String Str.DQUOTE ""))%string
  /\ Str.quoteArgument (String "a" (String Str.LF "b"))
     = String "a" (String Str.LF "b").
Proof. repeat split. Qed.

(** Nothing fails: the child's exit code 7 comes back, nothing is printed,
    and fifteen calls are made, the last two being the unlock and the
    close. *)
Example run_friendly :
  let x := run (friendly tool 7) example_argv in
  ended x = Val 7 /\ exit_status x = 7 /\ stderr x = EmptyString
  /\ List.length (calls x) = 15%nat
  /\ map ev_call (skipn 13 (calls x))
     = [UnlockFileEx 100 0 1 0 zeroed_OVERLAPPED; CloseHandle 100]
  /\ map ev_call (firstn 2 (skipn 6 (calls x)))
     = [CreateProcessA tool
          ("C:\tools\tool.exe a " ++ String Str.DQUOTE "b c"
             ++ String Str.DQUOTE "")%string
          TRUE CREATE_SUSPENDED
          {| dwFlags := 0; hStdInput := 10; hStdOutput := 9; hStdError := 8 |};
        CreateJobObject].
Proof. vm_compute. repeat split. Qed.

Example run_without_command :
  let x := run (friendly tool 7) ["withlockfile"; "lock.txt"]%string in
  exit_status x = 1 /\ stderr x = usage /\ calls x = [].
Proof. vm_compute. repeat split. Qed.

Example run_cannot_start :
  let x := run cannot_start example_argv in
  exit_status x = 2
  /\ stderr x = ("error: CreateProcessA failed: 0 (code 2)" ++ endl)%string.
Proof. vm_compute. repeat split. Qed.

Example run_out_of_memory :
  let x := run out_of_memory example_argv in
  exit_status x = 1 /\ stderr x = ("error: std::bad_alloc" ++ endl)%string.
Proof. vm_compute. repeat split. Qed.

(** Memory runs out after the executable was found: the lookup is the last
    call, and the exception is reported like the one of line 107. *)
Example run_out_of_memory_later :
  let x := run out_of_memory_later example_argv in
  exit_status x = 1 /\ stderr x = ("error: std::bad_alloc" ++ endl)%string
  /\ map ev_call (skipn 2 (calls x)) = [PathSearchAndQualifyA "tool.exe" MAX_PATH]
  /\ map ev_call (skipn 2 (calls (run out_of_memory example_argv))) = [].
Proof. vm_compute. repeat split. Qed.

(** Without standard handles the child is created all the same, with the
    three invalid handles, and the execution runs through. *)
Example run_no_standard_handles :
  let x := run no_standard_handles example_argv in
  ended x = Val 0 /\ List.length (calls x) = 15%nat
  /\ map ev_ret (firstn 3 (skipn 3 (calls x)))
     = [INVALID_HANDLE_VALUE; INVALID_HANDLE_VALUE; INVALID_HANDLE_VALUE]
  /\ map ev_call (firstn 1 (skipn 6 (calls x)))
     = [CreateProcessA tool
          ("C:\tools\tool.exe a " ++ String Str.DQUOTE "b c"
             ++ String Str.DQUOTE EmptyString)%string
          TRUE CREATE_SUSPENDED
          {| dwFlags := 0;
             hStdInput := INVALID_HANDLE_VALUE; hStdOutput := INVALID_HANDLE_VALUE;
             hStdError := INVALID_HANDLE_VALUE |}].
Proof. vm_compute. repeat split. Qed.

Example run_busy_once :
  let x := run busy_once example_argv in
  ended x = Val 0
  /\ map ev_call (firstn 4 (calls x))
     = [CreateFileA "lock.txt" GENERIC_READ FILE_SHARE_READ OPEN_ALWAYS
          FILE_ATTRIBUTE_READONLY;
        LockFileEx 100 3 0 1 0 zeroed_OVERLAPPED;
        Sleep 1000;
        LockFileEx 100 3 0 1 0 zeroed_OVERLAPPED].
Proof. vm_compute. repeat split. Qed.

Example strip_crlf_examples :
  strip_crlf ("Access is denied." ++ String Str.CR (String Str.LF "")) = "Access is denied."%string
  /\ strip_crlf "0" = "0"%string
  /\ decimal 4294967295 = "4294967295"%string
  /\ int_of_DWORD 4294967295 = -1
  /\ int_of_DWORD 4294967295 mod 2 ^ 32 = 4294967295.
Proof. vm_compute. repeat split. Qed.

(** ** Part 18: the exit status and the diagnostics *)

(** The line that the handler of [Win32Error] prints, character by
    character. *)
Lemma error_line_text (what message : string) (code : DWORD) :
  (error_line what message code ++ endl)%string
  = ("error: " ++ what ++ " failed: " ++ message ++ " (code " ++ decimal code
     ++ ")" ++ String Str.LF EmptyString)%string.
Proof.
  unfold error_line, endl. now rewrite !StrFacts.app_assoc.
Qed.

Lemma contended_in_prologue (os : OS) (argv : list string) (k : nat)
    (t : list event) :
  (0 < k)%nat ->
  In (Event (LockFileEx (lock_file os) lock_flags 0 1 0
               (ol_seen os zeroed_OVERLAPPED 0 0)) 0 ERROR_LOCK_VIOLATION)
     (prologue os argv k ++ t).
Proof.
  intro Hk. apply in_or_app. left. right.
  destruct (nth_error_retries os (lock_file os) zeroed_OVERLAPPED 0 k 0 Hk) as [H _].
  now apply nth_error_In in H.
Qed.

(** Looks among the calls of an explicit trace, from the last one back, for
    one that [tac] accepts. *)
Ltac some_call l tac :=
  lazymatch l with
  | ?e :: ?l' => first [ some_call l' tac | exists e; tac ]
  end.

Ltac is_member :=
  first [ apply in_or_app; right | idtac ];
  cbn [In]; repeat (first [ left; reflexivity | right ]).

Ltac the_failed_call :=
  split; [ is_member | ];
  unfold failed, checked_as, opened, deciding, last_attempt, lock_file in *;
  cbn [ev_call ev_ret ev_err Nat.add]; rewrite ?Z.eqb_refl;
  split; [ solve [decide_tests] | ];
  split; [ reflexivity | ];
  first [ intros _; reflexivity
        | let C := fresh in intro C; now destruct C ].

(** X17.  What [main] returns and prints at each of its exits.  With
    fewer than two arguments after the program name: status 1 and the usage
    line.  When the whole sequence succeeds: the child's exit code, and
    nothing on standard error.  When the [try] block ends with the error
    of an operation: the code of that error as the status, and the line
    [error: <operation> failed: <message> (code <digits>)], where the
    digits are the decimal digits of the code and the message is the
    C string that [FormatMessageA] left in the buffer, without the CR LF
    at its end when it has one; a call of that operation has failed, and
    the code is the error code it left, unless the operation is
    [SetInformationJobObject].  After any other exception: status 1 and
    the line [error: <message>]. *)
Theorem exit_status_and_diagnostics (os : OS) (argv : list string) :
  ((List.length argv < 3)%nat ->
   exit_status (run os argv) = 1
   /\ stderr (run os argv)
      = ("usage: withlockfile <lockfile> <command> [args..]"
         ++ String Str.LF EmptyString)%string) /\
  ((3 <= List.length argv)%nat ->
   forall v, ended (run os argv) = Val v ->
   is_DWORD (out (on_GetExitCodeProcess os)) ->
   exit_status (run os argv) = out (on_GetExitCodeProcess os)
   /\ stderr (run os argv) = EmptyString) /\
  (forall what code,
   ended (run os argv) = Exc (Win32Error what code) ->
   is_DWORD code ->
   exit_status (run os argv) = code
   /\ (exists message digits,
         stderr (run os argv)
         = ("error: " ++ what ++ " failed: " ++ message ++ " (code " ++ digits
            ++ ")" ++ String Str.LF EmptyString)%string
         /\ read_decimal digits = Some code
         /\ (forall rest, digits = String "0" rest -> rest = EmptyString)
         /\ (Str.c_str (out (on_FormatMessageA os code))
             = (message ++ String Str.CR (String Str.LF EmptyString))%string
             \/ (message = Str.c_str (out (on_FormatMessageA os code))
                 /\ ~ ends_in_crlf message)))
   /\ (exists e, In e (calls (run os argv)) /\ failed e = true
                 /\ checked_as (lock_file os) e = Some what
                 /\ (what <> "SetInformationJobObject"%string -> ev_err e = code))) /\
  (forall what,
   ended (run os argv) = Exc (std_exception what) ->
   exit_status (run os argv) = 1
   /\ stderr (run os argv)
      = ("error: " ++ what ++ String Str.LF EmptyString)%string).
Proof.
  follow_run os argv;
    (split; [intro | split; [intros ? v Hv Hd | split; [intros what code Hw Hd
       | intros what Hw]]]);
    try lia; try discriminate;
    try (injection Hw as <- <-); try (injection Hw as <-);
    try (split; reflexivity);
    try (split; [now apply int_of_DWORD_status | reflexivity]).
  all: split; [now apply int_of_DWORD_status|].
  all: split;
    [ do 2 eexists; split; [apply error_line_text|];
      split; [apply read_decimal_of_decimal; apply Hd|];
      split; [apply decimal_canonical|];
      match goal with
      | |- context [strip_crlf ?s] =>
          destruct (strip_crlf_message s) as [E | [E N]];
          [left; exact E | right; split; [exact E | now rewrite E]]
      end
    | ].
  all: try (match goal with
            | |- exists e, In e (_ ++ ?l) /\ _ => some_call l the_failed_call
            | |- exists e, In e ?l /\ _ => some_call l the_failed_call
            end).
  eexists. split; [apply contended_in_prologue; unfold attempts; lia|].
  repeat split.
Qed.

(** X18.  In every execution that does not end with the error of
    [SetInformationJobObject], the exit status after a failure of the
    operating system is the error code that the failed call left. *)
Theorem error_code_reported_elsewhere (os : OS) (argv : list string) :
  (forall code,
      ended (run os argv) <> Exc (Win32Error "SetInformationJobObject" code)) ->
  (forall what code,
      ended (run os argv) = Exc (Win32Error what code) -> is_DWORD code) ->
  status_is_the_error_code os argv.
Proof.
  unfold status_is_the_error_code. cbv zeta.
  follow_run os argv; intros Hother Hdword e what code Hend Hin Hfailed Hchecked Hcont;
    try discriminate Hend;
    try (now destruct (Hother _ eq_refl));
    specialize (Hdword _ _ eq_refl);
    rewrite (int_of_DWORD_status _ Hdword);
    injection Hend as <- <-;
    which_event Hin;
    unfold opened, deciding, last_attempt, reported, lock_file in *;
    unfold failed, checked_as, contended, is_LockFileEx in *;
    cbn [ev_call ev_ret ev_err Nat.add andb] in *;
    try discriminate Hfailed; try discriminate Hchecked;
    try reflexivity.
  apply Hcont. reflexivity.
Qed.

Lemma error_code_reported_elsewhere_witness :
  status_is_the_error_code cannot_start example_argv.
Proof.
  apply (error_code_reported_elsewhere cannot_start example_argv).
  - intros code H. discriminate H.
  - intros what code H. injection H as <- <-. unfold is_DWORD. lia.
Defined.

(** ** Part 19: names and arguments on their way to the child *)

Lemma mem_char_app (c : ascii) (a b : string) :
  Str.mem_char c (a ++ b) = Str.mem_char c a || Str.mem_char c b.
Proof.
  induction a as [|x a IH]; cbn [String.append Str.mem_char]; [reflexivity|].
  now rewrite IH, orb_assoc.
Qed.

Lemma nul_free_app (a b : string) :
  Str.nul_free a -> Str.nul_free b -> Str.nul_free (a ++ b).
Proof.
  unfold Str.nul_free. intros Ha Hb. now rewrite mem_char_app, Ha, Hb.
Qed.

Lemma enforce_nul_free (s : string) :
  Str.nul_free s -> Str.nul_free (Str.enforceExeExtension s).
Proof.
  intro H. unfold Str.enforceExeExtension. cbv zeta.
  destruct (_ || _); [|exact H]. apply nul_free_app; [exact H | reflexivity].
Qed.

Lemma enforce_ends_in_exe (s : string) :
  Str.ends_in_exe (Str.enforceExeExtension s).
Proof.
  destruct (StrFacts.ends_in_exe_dec s) as [H | H].
  - now rewrite StrFacts.enforce_present.
  - rewrite StrFacts.enforce_absent by exact H. apply StrFacts.appended_ends_in_exe.
Qed.

(** X4.  The name that an execution looks up on the search path is the
    command name with the extension enforced, in a buffer of [MAX_PATH]
    characters; for a command name without NUL it ends in ".exe" (in any
    case of the letters) and is the command name itself or the command name
    followed by ".exe". *)
Theorem looked_up_name (os : OS) (argv : list string) (e : event)
    (path : string) (size : Z) :
  In e (calls (run os argv)) ->
  ev_call e = PathSearchAndQualifyA path size ->
  size = MAX_PATH /\
  path = Str.c_str (Str.enforceExeExtension (arg argv 2)) /\
  (Str.nul_free (arg argv 2) ->
   Str.ends_in_exe path
   /\ (path = arg argv 2 \/ path = (arg argv 2 ++ ".exe")%string)).
Proof.
  follow_run os argv; intros Hin Hcall; which_event Hin;
    unfold opened, deciding, last_attempt in *;
    cbn [ev_call] in Hcall; try discriminate Hcall.
  all: injection Hcall as <- <-; split; [reflexivity|]; split; [reflexivity|];
    intro Hn; rewrite (StrFacts.c_str_id _ (enforce_nul_free _ Hn));
    split; [apply enforce_ends_in_exe|];
    destruct (StrFacts.ends_in_exe_dec (arg argv 2)) as [H | H];
    [left; now apply StrFacts.enforce_present
    |right; now apply StrFacts.enforce_absent].
Qed.

Lemma looked_up_name_witness :
  "tool.exe"%string
  = Str.c_str (Str.enforceExeExtension (arg example_argv 2)).
Proof.
  apply (looked_up_name (friendly tool 0) example_argv
           (Event (PathSearchAndQualifyA "tool.exe" 260) 1 0) "tool.exe" 260).
  - vm_compute. tauto.
  - reflexivity.
Defined.

Lemma chars_app (a b : string) : Str.chars (a ++ b) = Str.chars a ++ Str.chars b.
Proof.
  induction a as [|x a IH]; cbn [String.append Str.chars app];
    [reflexivity | now rewrite IH].
Qed.

Lemma whitespace_app (a b : string) :
  Str.contains_whitespace (a ++ b)
  <-> Str.contains_whitespace a \/ Str.contains_whitespace b.
Proof.
  unfold Str.contains_whitespace. rewrite chars_app. split.
  - intros (c & Hc & Hw). apply in_app_or in Hc as [Hc | Hc]; [left | right];
      now exists c.
  - intros [(c & Hc & Hw) | (c & Hc & Hw)]; exists c; split; auto;
      apply in_or_app; auto.
Qed.

Lemma quote_is_no_whitespace :
  ~ Str.contains_whitespace (String Str.DQUOTE EmptyString).
Proof.
  intros (c & [<- | []] & [H | H]); discriminate H.
Qed.

(** X5.  The command line does not determine the arguments: for [x] and
    [y] without whitespace, the single argument [x y] and the two arguments
    ["x] and [y"] give the same command line, because the quotes that
    [quoteArgument] adds are not told apart from quotes inside an
    argument. *)
Theorem command_line_is_ambiguous (executable prog lock cmd x y : string) :
  ~ Str.contains_whitespace x -> ~ Str.contains_whitespace y ->
  Str.buildCommandLine executable [prog; lock; cmd; (x ++ " " ++ y)%string]
  = Str.buildCommandLine executable
      [prog; lock; cmd;
       (String Str.DQUOTE EmptyString ++ x)%string;
       (y ++ String Str.DQUOTE EmptyString)%string]
  /\ (x ++ " " ++ y)%string <> (String Str.DQUOTE EmptyString ++ x)%string.
Proof.
  intros Hx Hy.
  assert (H1 : Str.contains_whitespace (x ++ " " ++ y)%string).
  { apply whitespace_app. right. apply whitespace_app. left.
    exists Str.SPACE. split; [now left | now left]. }
  assert (H2 : ~ Str.contains_whitespace (String Str.DQUOTE EmptyString ++ x)%string).
  { intro H. apply whitespace_app in H as [H | H];
      [now apply quote_is_no_whitespace | now apply Hx]. }
  assert (H3 : ~ Str.contains_whitespace (y ++ String Str.DQUOTE EmptyString)%string).
  { intro H. apply whitespace_app in H as [H | H];
      [now apply Hy | now apply quote_is_no_whitespace]. }
  split; [|intro E; apply H2; now rewrite <- E].
  unfold Str.buildCommandLine. cbn [skipn Str.appendArguments].
  rewrite (proj1 (StrFacts.quoteArgument_cases _) H1).
  rewrite (proj2 (StrFacts.quoteArgument_cases _) H2).
  rewrite (proj2 (StrFacts.quoteArgument_cases _) H3).
  rewrite !StrFacts.app_assoc. reflexivity.
Qed.

Lemma command_line_is_ambiguous_witness :
  Str.buildCommandLine tool ["withlockfile"; "lock.txt"; "tool"; "b c"]%string
  = Str.buildCommandLine tool
      ["withlockfile"; "lock.txt"; "tool";
       (String Str.DQUOTE EmptyString ++ "b")%string;
       ("c" ++ String Str.DQUOTE EmptyString)%string]%string.
Proof.
  apply (command_line_is_ambiguous tool "withlockfile" "lock.txt" "tool" "b" "c");
    intros (c & Hc & [H | H]); cbn in Hc;
    destruct Hc as [<- | []]; discriminate H.
Defined.

(** ** Part 20: what an execution calls, and when *)

(** X6.  An execution makes no call at all when fewer than two arguments
    follow the program name; otherwise its first call opens the file named
    by the first argument, for reading, shared for reading, creating it when
    it does not exist, and it never opens a file again. *)
Theorem lock_file_opened_first (os : OS) (argv : list string) :
  ((List.length argv < 3)%nat -> calls (run os argv) = []) /\
  ((3 <= List.length argv)%nat ->
   exists t,
     calls (run os argv)
     = Event (CreateFileA (nth 1 argv EmptyString) GENERIC_READ FILE_SHARE_READ
                OPEN_ALWAYS FILE_ATTRIBUTE_READONLY)
             (ret (on_CreateFileA os)) (err (on_CreateFileA os)) :: t
     /\ existsb (calls_to "CreateFileA") t = false).
Proof.
  follow_run os argv;
    (split; [intro Hl; try lia; reflexivity | intro Hl; try lia]);
    unfold prologue; cbn [app]; eexists; (split; [reflexivity|]);
    rewrite ?existsb_app, ?existsb_retries by reflexivity; reflexivity.
Qed.

(** Uses what is known of a name to decide the tests on it. *)
Ltac decide_names :=
  repeat match goal with
         | H : ?n <> ?l |- _ =>
             rewrite (proj2 (String.eqb_neq l n) (not_eq_sym H)) in *
         end.

(** X7.  Nothing of the command's launch happens without the lock: when an
    execution calls any API other than [CreateFileA], [LockFileEx], [Sleep]
    and [FormatMessageA] (the lookup of the executable, the creation of the
    child, the job object, the wait, the unlock, ...), it has acquired the
    lock strictly before the first such call. *)
Theorem nothing_without_the_lock (os : OS) (argv : list string) (name : string) :
  name <> "CreateFileA"%string -> name <> "LockFileEx"%string ->
  name <> "Sleep"%string -> name <> "FormatMessageA"%string ->
  happens (calls_to name) (run os argv) ->
  precedes acquires (calls_to name) (calls (run os argv)) = true.
Proof.
  follow_run os argv; intros H1 H2 H3 H4 Hh;
    rewrite ?existsb_prologue in Hh by (apply calls_to_later; assumption);
    rewrite ?precedes_prologue
      by (first [apply later_acquires | apply calls_to_later; assumption]);
    unfold deciding, last_attempt, opened, reported, calls_to, acquires,
      is_LockFileEx in *;
    cbn [precedes existsb ev_call ev_ret api andb Nat.add] in *;
    decide_names; cbn [orb] in *; try discriminate Hh;
    rewrite (proj2 (Z.eqb_neq _ _) Hret); cbn [negb]; exact Hh.
Qed.

Lemma nothing_without_the_lock_witness :
  precedes acquires (calls_to "CreateProcessA")
    (calls (run (friendly tool 0) example_argv)) = true.
Proof.
  apply (nothing_without_the_lock (friendly tool 0) example_argv "CreateProcessA");
    try discriminate.
  reflexivity.
Defined.

Lemma count_flat_map (P : event -> bool) (g : nat -> list event) (c : nat)
    (l : list nat) :
  (forall j, count P (g j) = c) -> count P (flat_map g l) = (c * List.length l)%nat.
Proof.
  intro H. induction l as [|j l IH]; cbn [flat_map List.length]; [unfold count; cbn; lia|].
  rewrite count_app, H, IH. lia.
Qed.




Lemma c_str_twice (s : string) : Str.c_str (Str.c_str s) = Str.c_str s.
Proof. apply StrFacts.c_str_id, StrFacts.c_str_nul_free. Qed.

(** X9.  Whenever an execution creates the child, it names as application
    the path that [PathSearchAndQualifyA] returned, passes a command line
    without NUL, lets the child inherit the handles, and starts it suspended
    and without any other creation flag.  The startup structure holds the
    three values that [GetStdHandle] returned, whatever they are, but its
    flags are 0: [STARTF_USESTDHANDLES] is not set. *)
Theorem child_creation (os : OS) (argv : list string) (e : event)
    (app cmd : string) (inherit : BOOL) (flags : DWORD) (si : STARTUPINFOA) :
  In e (calls (run os argv)) ->
  ev_call e = CreateProcessA app cmd inherit flags si ->
  app = resolved os /\ Str.nul_free app /\ Str.nul_free cmd /\
  inherit = TRUE /\ flags = CREATE_SUSPENDED /\
  si = {| dwFlags := 0;
          hStdInput := ret (on_GetStdHandle os STD_INPUT_HANDLE);
          hStdOutput := ret (on_GetStdHandle os STD_OUTPUT_HANDLE);
          hStdError := ret (on_GetStdHandle os STD_ERROR_HANDLE) |} /\
  Z.land (dwFlags si) STARTF_USESTDHANDLES = 0 /\
  precedes (calls_to "GetStdHandle") (calls_to "CreateProcessA")
    (calls (run os argv)) = true.
Proof.
  follow_run os argv; intros Hin Hcall; which_event Hin;
    unfold opened, deciding, last_attempt in *;
    cbn [ev_call] in Hcall; try discriminate Hcall;
    injection Hcall as <- <- <- <- <-;
    unfold resolved; rewrite c_str_twice;
    (split; [reflexivity|]); (split; [apply StrFacts.c_str_nul_free|]);
    (split; [apply StrFacts.c_str_nul_free|]);
    (split; [reflexivity|]); (split; [reflexivity|]); (split; [reflexivity|]);
    (split; [reflexivity|]);
    rewrite precedes_prologue by (apply calls_to_later; discriminate);
    reflexivity.
Qed.

Lemma child_creation_witness :
  precedes (calls_to "GetStdHandle") (calls_to "CreateProcessA")
    (calls (run (friendly tool 0) example_argv)) = true.
Proof.
  eapply (child_creation (friendly tool 0) example_argv
            (Event (CreateProcessA _ _ _ _ _) 1 0)).
  - vm_compute. do 6 right. left. reflexivity.
  - reflexivity.
Defined.

(** ** Part 21: the job object *)

Lemma later_sets_kill_on_close (h : HANDLE) : later_kind (sets_kill_on_close h).
Proof. prove_later. Qed.

(** X10.  Whenever an execution tries to attach a process to a job, the
    process is the child it created and the job is the one it created; that
    job has been configured, successfully, to kill its processes when its
    handle is closed; and the child, created suspended, has not been resumed
    yet. *)
Theorem attach_to_configured_job (os : OS) (argv : list string) (e : event)
    (h p : HANDLE) :
  In e (calls (run os argv)) ->
  ev_call e = AssignProcessToJobObject h p ->
  h = job os /\ p = hProcess (child os) /\
  precedes (sets_kill_on_close (job os)) is_AssignProcessToJobObject
    (calls (run os argv)) = true /\
  precedes creates_suspended is_AssignProcessToJobObject (calls (run os argv)) = true /\
  precedes is_ResumeThread is_AssignProcessToJobObject (calls (run os argv)) = false.
Proof.
  follow_run os argv; intros Hin Hcall; which_event Hin;
    unfold opened, deciding, last_attempt in *;
    cbn [ev_call] in Hcall; try discriminate Hcall;
    injection Hcall as <- <-;
    (split; [reflexivity|]); (split; [reflexivity|]);
    rewrite !precedes_prologue
      by (first [apply later_sets_kill_on_close | auto with later]);
    unfold job, sets_kill_on_close, creates_suspended, is_AssignProcessToJobObject,
      is_ResumeThread;
    cbn [precedes existsb ev_call ev_ret];
    change (Z.lor 0 JOB_OBJECT_LIMIT_KILL_ON_JOB_CLOSE)
      with JOB_OBJECT_LIMIT_KILL_ON_JOB_CLOSE;
    rewrite !Z.eqb_refl; decide_tests; repeat split; reflexivity.
Qed.

Lemma attach_to_configured_job_witness :
  precedes (sets_kill_on_close (job inside_a_job)) is_AssignProcessToJobObject
    (calls (run inside_a_job example_argv)) = true.
Proof.
  eapply (attach_to_configured_job inside_a_job example_argv
            (Event (AssignProcessToJobObject _ _) 0 ERROR_ACCESS_DENIED)).
  - vm_compute. do 9 right. left. reflexivity.
  - reflexivity.
Defined.

(** X11.  When the configuration of the job object fails, the execution
    closes the job object's handle, resumes nothing and attaches nothing,
    and reports [SetInformationJobObject]; the code it reports and exits
    with is the last-error value left after the handle was closed, not the
    one the failed call left. *)
Theorem job_configuration_failure (os : OS) (argv : list string) (e : event)
    (h : HANDLE) (flags : DWORD) :
  In e (calls (run os argv)) ->
  ev_call e = SetInformationJobObject h flags ->
  ev_ret e = 0 ->
  precedes is_SetInformationJobObject (is_CloseHandle_of (job os))
    (calls (run os argv)) = true /\
  ~ happens is_AssignProcessToJobObject (run os argv) /\
  ~ happens is_ResumeThread (run os argv) /\
  ended (run os argv)
  = Exc (Win32Error "SetInformationJobObject" (err (on_CloseHandle_job os))) /\
  returned (run os argv) = int_of_DWORD (err (on_CloseHandle_job os)).
Proof.
  assert (L : later_kind is_SetInformationJobObject) by prove_later.
  follow_run os argv; intros Hin Hcall Hfail; which_event Hin;
    unfold opened, deciding, last_attempt in *;
    cbn [ev_call ev_ret] in Hcall, Hfail; try discriminate Hcall;
    rewrite ?precedes_prologue, ?existsb_prologue by auto with later;
    unfold job, is_SetInformationJobObject, is_CloseHandle_of,
      is_AssignProcessToJobObject, is_ResumeThread;
    cbn [precedes existsb ev_call ev_ret];
    rewrite ?Z.eqb_refl; decide_tests;
    repeat split; try reflexivity; try discriminate.
Qed.

Lemma job_configuration_failure_witness :
  returned (run job_not_configurable example_argv) = 0.
Proof.
  eapply (job_configuration_failure job_not_configurable example_argv
            (Event (SetInformationJobObject _ _) 0 87)).
  - vm_compute. do 8 right. left. reflexivity.
  - reflexivity.
  - reflexivity.
Defined.




(** ** Part 22: the wait for the child *)

Lemma later_waited_for (h : HANDLE) : later_kind (waited_for h).
Proof. prove_later. Qed.

(** X19.  The exit code is never read from a child that may still be
    running: whenever an execution calls [GetExitCodeProcess], it does so on
    the child it created, after the child was resumed and after a wait
    without timeout for that same process has returned. *)
Theorem exit_code_read_after_wait (os : OS) (argv : list string) (e : event)
    (h : HANDLE) :
  In e (calls (run os argv)) ->
  ev_call e = GetExitCodeProcess h ->
  h = hProcess (child os) /\
  precedes resumes (waited_for h) (calls (run os argv)) = true /\
  precedes (waited_for h) (calls_to "GetExitCodeProcess") (calls (run os argv)) = true.
Proof.
  follow_run os argv; intros Hin Hcall; which_event Hin;
    unfold opened, deciding, last_attempt in *;
    cbn [ev_call] in Hcall; try discriminate Hcall;
    injection Hcall as <-;
    (split; [reflexivity|]);
    rewrite !precedes_prologue
      by (first [apply later_waited_for | apply calls_to_later; discriminate
                | auto with later]);
    unfold child, waited_for, resumes, is_ResumeThread, calls_to;
    cbn [precedes existsb ev_call ev_ret api String.eqb Ascii.eqb Bool.eqb
         andb negb orb];
    rewrite ?Z.eqb_refl;
    repeat match goal with
           | H : (_ =? _) = _ |- _ => rewrite H
           end;
    cbn [andb negb orb]; split; reflexivity.
Qed.

Lemma exit_code_read_after_wait_witness :
  precedes (waited_for 200) (calls_to "GetExitCodeProcess")
    (calls (run (friendly tool 0) example_argv)) = true.
Proof.
  apply (exit_code_read_after_wait (friendly tool 0) example_argv
           (Event (GetExitCodeProcess 200) 1 0) 200).
  - vm_compute. do 12 right. left. reflexivity.
  - reflexivity.
Defined.

(** ** Part 23: how an execution ends *)

Lemma retries_snoc (os : OS) (f : HANDLE) (ol : OVERLAPPED) (i k : nat) :
  retries os f ol i (S k) = retries os f ol i k ++ retry os f ol i k.
Proof.
  unfold retries. rewrite seq_S, flat_map_app. cbn [flat_map Nat.add].
  now rewrite app_nil_r.
Qed.

Lemma prologue_snoc (os : OS) (argv : list string) (k : nat) :
  prologue os argv (S k)
  = (prologue os argv k
     ++ [Event (LockFileEx (lock_file os) lock_flags 0 1 0
                  (ol_seen os zeroed_OVERLAPPED 0 k)) 0 ERROR_LOCK_VIOLATION])
    ++ [Event (Sleep 1000) 0 ERROR_LOCK_VIOLATION].
Proof.
  unfold prologue. rewrite retries_snoc. unfold retry.
  cbn [app]. rewrite <- !app_assoc. reflexivity.
Qed.

(** Splits an explicit trace before its last two calls. *)
Ltac last_two d :=
  match goal with
  | |- exists t e, ?pre ++ ?l = _ /\ _ =>
      exists (pre ++ removelast (removelast l)), (last (removelast l) d);
      cbn [removelast last]; split; [rewrite <- app_assoc; reflexivity|]
  | |- exists t e, ?l = _ /\ _ =>
      exists (removelast (removelast l)), (last (removelast l) d);
      cbn [removelast last]; split; [reflexivity|]
  end.

(** X14.  A failure of the operating system ends the execution at once:
    when the [try] block ends with the error of operation [what] and code
    [code], the last call of the execution fetches the message for [code],
    no message was fetched before, and the call before the last is the one
    that failed, under the name [what] and with [code] as its error code.
    There are two exceptions: after a failed [SetInformationJobObject] the
    job object's handle is closed in between, and the timeout of the lock
    is raised after the sleep that follows the last attempt. *)
Theorem failure_ends_the_execution (os : OS) (argv : list string)
    (what : string) (code : DWORD) :
  ended (run os argv) = Exc (Win32Error what code) ->
  exists t e,
    calls (run os argv) = t ++ [e; reported os code] /\
    existsb (calls_to "FormatMessageA") (t ++ [e]) = false /\
    ( (api (ev_call e) = what /\ failed e = true /\ ev_err e = code)
      \/ (what = "SetInformationJobObject"%string
          /\ ev_call e = CloseHandle (job os) /\ ev_err e = code)
      \/ (what = "LockFileEx"%string /\ code = ERROR_LOCK_VIOLATION
          /\ ev_call e = Sleep 1000) ).
Proof.
  assert (L : later_kind (calls_to "FormatMessageA"))
    by (apply calls_to_later; discriminate).
  follow_run os argv; intro Hend; try discriminate Hend;
    injection Hend as <- <-; fold (reported os);
    try (change attempts with (S 299); rewrite prologue_snoc;
         rewrite <- app_assoc; cbn [app]);
    match goal with
    | |- context [reported os ?c] => last_two (reported os c)
    end;
    rewrite <- ?app_assoc, ?existsb_prologue by exact L;
    unfold opened, deciding, last_attempt, calls_to, failed, job, lock_file in *;
    cbn [existsb app ev_call ev_ret ev_err api String.eqb Ascii.eqb Bool.eqb orb
         Nat.add];
    (split; [reflexivity|]).
  all: first [ left; split; [reflexivity|]; split; [decide_tests | reflexivity]
             | right; left; repeat split; reflexivity
             | right; right; repeat split; reflexivity ].
Qed.

Lemma failure_ends_the_execution_witness :
  exists t e,
    calls (run no_such_directory example_argv) = t ++ [e; reported no_such_directory 3] /\
    existsb (calls_to "FormatMessageA") (t ++ [e]) = false /\
    ( (api (ev_call e) = "CreateFileA"%string /\ failed e = true /\ ev_err e = 3)
      \/ ("CreateFileA"%string = "SetInformationJobObject"%string
          /\ ev_call e = CloseHandle (job no_such_directory) /\ ev_err e = 3)
      \/ ("CreateFileA"%string = "LockFileEx"%string /\ 3 = ERROR_LOCK_VIOLATION
          /\ ev_call e = Sleep 1000) ).
Proof.
  apply (failure_ends_the_execution no_such_directory example_argv "CreateFileA" 3).
  reflexivity.
Defined.

Lemma apis_retries (os : OS) (f : HANDLE) (ol : OVERLAPPED) (i k : nat) :
  apis (retries os f ol i k)
  = List.concat (repeat ["LockFileEx"; "Sleep"]%string k).
Proof.
  assert (G : forall l : list nat,
             apis (flat_map (retry os f ol i) l)
             = List.concat (repeat ["LockFileEx"; "Sleep"]%string (List.length l))).
  { induction l as [|j l IH]; [reflexivity|].
    cbn [flat_map List.length repeat List.concat]. unfold apis in *.
    now rewrite map_app, IH. }
  unfold retries. now rewrite G, length_seq.
Qed.

(** X15.  An execution that runs through to [return exitCode] makes, for
    some number [k < 300] of attempts that met contention, exactly these
    calls in this order: [CreateFileA]; [k] times [LockFileEx] and [Sleep];
    the [LockFileEx] that succeeds; [PathSearchAndQualifyA]; three times
    [GetStdHandle]; [CreateProcessA]; [CreateJobObject];
    [SetInformationJobObject]; [AssignProcessToJobObject]; [ResumeThread];
    [WaitForSingleObject]; [GetExitCodeProcess]; [UnlockFileEx];
    [CloseHandle].  That is [15 + 2 k] calls. *)
Theorem complete_execution_sequence (os : OS) (argv : list string) :
  completes argv (run os argv) ->
  exists k,
    (k < 300)%nat /\
    (forall j, (j < k)%nat -> contention os j) /\
    ret (on_LockFileEx os k) <> 0 /\
    apis (calls (run os argv))
    = ("CreateFileA"
       :: List.concat (repeat ["LockFileEx"; "Sleep"] k)
          ++ ["LockFileEx"; "PathSearchAndQualifyA"; "GetStdHandle";
              "GetStdHandle"; "GetStdHandle"; "CreateProcessA";
              "CreateJobObject"; "SetInformationJobObject";
              "AssignProcessToJobObject"; "ResumeThread";
              "WaitForSingleObject"; "GetExitCodeProcess"; "UnlockFileEx";
              "CloseHandle"])%string /\
    List.length (calls (run os argv)) = (15 + 2 * k)%nat.
Proof.
  follow_run os argv; intros [Hlen [v Hv]]; try discriminate Hv; try lia.
  exists k. split; [exact Hk|]. split; [exact Hbusy|]. split; [exact Hret|].
  split.
  - unfold apis, prologue. rewrite map_app. cbn [map app].
    fold (apis (retries os (lock_file os) zeroed_OVERLAPPED 0 k)).
    rewrite apis_retries. reflexivity.
  - unfold prologue. rewrite length_app. cbn [List.length].
    rewrite length_retries. lia.
Qed.

Lemma complete_execution_sequence_witness :
  exists k,
    (k < 300)%nat /\
    (forall j, (j < k)%nat -> contention busy_once j) /\
    ret (on_LockFileEx busy_once k) <> 0 /\
    apis (calls (run busy_once example_argv))
    = ("CreateFileA"
       :: List.concat (repeat ["LockFileEx"; "Sleep"] k)
          ++ ["LockFileEx"; "PathSearchAndQualifyA"; "GetStdHandle";
              "GetStdHandle"; "GetStdHandle"; "CreateProcessA";
              "CreateJobObject"; "SetInformationJobObject";
              "AssignProcessToJobObject"; "ResumeThread";
              "WaitForSingleObject"; "GetExitCodeProcess"; "UnlockFileEx";
              "CloseHandle"])%string /\
    List.length (calls (run busy_once example_argv)) = (15 + 2 * k)%nat.
Proof.
  apply (complete_execution_sequence busy_once example_argv).
  split; [vm_compute; lia | exists 0; reflexivity].
Defined.

Lemma count_calls_to_prologue (os : OS) (argv : list string) (k : nat)
    (name : string) :
  name <> "LockFileEx"%string -> name <> "Sleep"%string ->
  count (calls_to name) (prologue os argv k)
  = if String.eqb "CreateFileA" name then 1%nat else 0%nat.
Proof.
  intros H1 H2. unfold prologue.
  change (opened os argv :: ?t) with ([opened os argv] ++ t).
  rewrite count_app. unfold retries.
  rewrite (count_flat_map (calls_to name) _ 0).
  - unfold count, calls_to. cbn [filter opened ev_call api].
    destruct (String.eqb "CreateFileA" name); cbn; lia.
  - intro j. unfold count, retry, calls_to. cbn [filter ev_call api].
    decide_names. reflexivity.
Qed.

Lemma count_cons (P : event -> bool) (e : event) (t : list event) :
  count P (e :: t) = ((if P e then 1 else 0) + count P t)%nat.
Proof. unfold count. cbn [filter]. now destruct (P e). Qed.

(** Follows a name through the tests against the names of the APIs. *)
Ltac which_name name :=
  repeat match goal with
         | |- context [String.eqb ?l name] =>
             destruct (String.eqb_spec l name) as [<- | ?];
             [cbn [String.eqb Ascii.eqb Bool.eqb]; try lia; try congruence | ]
         end;
  try lia.

(** X16.  No execution calls an API twice, apart from [LockFileEx] and
    [Sleep] in the retry loop and [GetStdHandle], which is called three
    times or not at all: in particular a child is created at most once, its
    exit code is read at most once, the lock is released at most once, and
    at most one error is reported. *)
Theorem each_step_at_most_once (os : OS) (argv : list string) (name : string) :
  name <> "LockFileEx"%string -> name <> "Sleep"%string ->
  name <> "GetStdHandle"%string ->
  (count (calls_to name) (calls (run os argv)) <= 1)%nat /\
  (count (calls_to "GetStdHandle") (calls (run os argv)) = 0%nat
   \/ count (calls_to "GetStdHandle") (calls (run os argv)) = 3%nat).
Proof.
  follow_run os argv; intros H1 H2 H3;
    rewrite ?count_app;
    rewrite ?(count_calls_to_prologue os argv _ name H1 H2);
    rewrite ?(count_calls_to_prologue os argv _ "GetStdHandle")
      by discriminate;
    rewrite ?count_cons; change (count ?P []) with 0%nat;
    unfold calls_to, opened, deciding, last_attempt;
    cbn [ev_call api];
    (split; [which_name name
            | cbn [String.eqb Ascii.eqb Bool.eqb Nat.add]; auto]).
Qed.

Lemma each_step_at_most_once_witness :
  (count (calls_to "GetExitCodeProcess")
     (calls (run (friendly tool 0%Z) example_argv)) <= 1)%nat.
Proof.
  apply (each_step_at_most_once (friendly tool 0) example_argv "GetExitCodeProcess");
    discriminate.
Defined.
